(** * A shallow embedding of the chat relay server (src/app.js)

    The server keeps two JavaScript [Map]s (activeUsers, userSockets), talks
    to a Firestore document store and to clients through socket.io.  Each
    handler of app.js is translated into a function of a small
    state-and-log monad: the state holds the two maps, socket.io's room
    table and the two Firestore collections; the log records, in program
    order, every write and every emission the handler performs.

    Conventions.
    - A JavaScript string is a [string]; each [ascii] stands for one code
      unit below 256, so the default [Array.prototype.sort] order (by code
      units) is the lexicographic order on [ascii] codes.
    - A field a client may omit is an [option]; [None] is [undefined].
    - An [await]ed Firestore call either returns or throws; which one is
      decided by the environment [Env] handed to the handler.
    - [dispatch] and [run] let a handler run to completion before the next
      event is taken.  The handlers of app.js yield at every [await]: that
      server is [play], where the part of a handler up to an await, the
      store's work and the rest of the handler are separate moves;
      [run_is_play] shows every run to be one schedule of [play]. *)

From Stdlib Require Import String Ascii ZArith List.
From stdpp Require Import base gmap strings list fin_maps.

Open Scope string_scope.
Open Scope list_scope.

(** ** JavaScript values used by the handlers *)

(** [!x] for a value that is a string or [undefined]. *)
Definition falsy (x : option string) : bool :=
  match x with
  | None => true
  | Some s => bool_decide (s = "")
  end.

(** The string held by a truthy value. *)
Definition str (x : option string) : string := default "" x.

(** [!x] for a value that is a number or [undefined]. *)
Definition falsy_num (x : option Z) : bool :=
  match x with
  | None => true
  | Some z => bool_decide (z = 0%Z)
  end.

(** White space and line terminators of ECMAScript among the code units
    below 256: TAB, LF, VT, FF, CR, SP and NBSP. *)
Definition is_white (a : ascii) : bool :=
  let n := nat_of_ascii a in
  bool_decide (n = 9 ∨ n = 10 ∨ n = 11 ∨ n = 12 ∨ n = 13 ∨ n = 32 ∨ n = 160).

Fixpoint trim_start (s : string) : string :=
  match s with
  | EmptyString => EmptyString
  | String a r => if is_white a then trim_start r else s
  end.

Fixpoint rev_string (s acc : string) : string :=
  match s with
  | EmptyString => acc
  | String a r => rev_string r (String a acc)
  end.

Definition trim_end (s : string) : string :=
  rev_string (trim_start (rev_string s "")) "".

(** [String.prototype.trim]. *)
Definition trim (s : string) : string := trim_end (trim_start s).

(** [x < y] on strings. *)
Definition js_lt (x y : string) : bool :=
  match String.compare x y with
  | Lt => true
  | _ => false
  end.

(** [Array.prototype.sort] without a comparator, on an array of strings:
    a stable sort by code units (insertion sort is one such). *)
Fixpoint sort_insert (x : string) (l : list string) : list string :=
  match l with
  | [] => [x]
  | y :: r => if js_lt x y then x :: y :: r else y :: sort_insert x r
  end.

Definition sort (l : list string) : list string :=
  foldr sort_insert [] l.

(** [Array.prototype.join]. *)
Definition join (sep : string) (l : list string) : string :=
  String.concat sep l.

(** [Array.prototype.includes]. *)
Definition includes (l : list string) (x : string) : bool :=
  bool_decide (x ∈ l).

(** ** Documents of the store *)

Record Chat := {
  participants : list string;
  createdAt : Z;
  lastMessage : option string;
  lastMessageAt : option Z
}.

Record MessageData := {
  senderId : string;
  message : string;
  timestamp : Z;
  chatId : string
}.

#[global] Instance Chat_eq_dec : EqDecision Chat.
Proof. solve_decision. Defined.

#[global] Instance MessageData_eq_dec : EqDecision MessageData.
Proof. solve_decision. Defined.

(** ** Payloads sent by clients *)

Record JoinData := { jd_userId : option string; jd_chatId : option string }.
Record SendData := { sd_message : option string; sd_timestamp : option Z }.
Record TypingData := { td_isTyping : option bool }.

(** ** Events and payloads sent by the server *)

Inductive EventName :=
| EvError | EvJoined | EvUserOnline | EvUserOffline | EvUserTyping | EvNewMessage.

Inductive Payload :=
| PStr (msg : string)                                (* a bare string *)
| PUser (userId : string)                            (* { userId } *)
| PJoined (chatId userId : string)                   (* { chatId, userId } *)
| PTyping (userId : string) (isTyping : option bool) (* { userId, isTyping } *)
| PSaved (id : string) (doc : option MessageData).   (* { id, ...data } *)

#[global] Instance EventName_eq_dec : EqDecision EventName.
Proof. solve_decision. Defined.

#[global] Instance Payload_eq_dec : EqDecision Payload.
Proof. solve_decision. Defined.

(** ** State *)

Record State := {
  activeUsers : gmap string string;            (* userId -> socket.id *)
  userSockets : gmap string (string * string); (* socket.id -> {userId, chatId} *)
  sockets : gset string;                       (* socket.io: connected sockets *)
  rooms : gmap string (gset string);           (* socket.io: room -> members *)
  chats : gmap string Chat;                    (* Firestore: chats *)
  messages : gmap string MessageData           (* Firestore: messages *)
}.

Definition set_activeUsers (f : gmap string string → gmap string string) (σ : State) : State :=
  {| activeUsers := f (activeUsers σ); userSockets := userSockets σ;
     sockets := sockets σ; rooms := rooms σ;
     chats := chats σ; messages := messages σ |}.

Definition set_userSockets
    (f : gmap string (string * string) → gmap string (string * string)) (σ : State) : State :=
  {| activeUsers := activeUsers σ; userSockets := f (userSockets σ);
     sockets := sockets σ; rooms := rooms σ;
     chats := chats σ; messages := messages σ |}.

Definition set_sockets (f : gset string → gset string) (σ : State) : State :=
  {| activeUsers := activeUsers σ; userSockets := userSockets σ;
     sockets := f (sockets σ); rooms := rooms σ;
     chats := chats σ; messages := messages σ |}.

Definition set_rooms
    (f : gmap string (gset string) → gmap string (gset string)) (σ : State) : State :=
  {| activeUsers := activeUsers σ; userSockets := userSockets σ;
     sockets := sockets σ; rooms := f (rooms σ);
     chats := chats σ; messages := messages σ |}.

Definition set_chats (f : gmap string Chat → gmap string Chat) (σ : State) : State :=
  {| activeUsers := activeUsers σ; userSockets := userSockets σ;
     sockets := sockets σ; rooms := rooms σ;
     chats := f (chats σ); messages := messages σ |}.

Definition set_messages
    (f : gmap string MessageData → gmap string MessageData) (σ : State) : State :=
  {| activeUsers := activeUsers σ; userSockets := userSockets σ;
     sockets := sockets σ; rooms := rooms σ;
     chats := chats σ; messages := f (messages σ) |}.

(** The members of a socket.io room. *)
Definition members (σ : State) (room : string) : gset string :=
  default ∅ (rooms σ !! room).

(** The answers of the HTTP handler. *)
Inductive Response :=
| Ok200 (chatId : string) (sortedParticipants : list string)
                                   (* res.json({ chatId, participants }) *)
| Bad400 (error : string)          (* res.status(400).json({ error }) *)
| Fail500 (error : string).        (* res.status(500).json({ error }) *)

(** ** The log of a handler

    One entry per write or emission, in program order.  A broadcast records
    the sockets it was delivered to, computed when it was made. *)

Inductive Action :=
| ARoomJoin (s room : string)                 (* socket.join(room) *)
| ASetActive (u s : string)                   (* activeUsers.set(u, s) *)
| ASetSession (s u c : string)                (* userSockets.set(s, {u, c}) *)
| ADelActive (u : string)                     (* activeUsers.delete(u) *)
| ADelSession (s : string)                    (* userSockets.delete(s) *)
| AAddMessage (id : string) (d : MessageData) (* collection('messages').add(d) *)
| ASetChat (c : string) (d : Chat)            (* doc(c).set(d) *)
| AUpdateChat (c : string) (lm : string) (at_ : Z)     (* doc(c).update(..) *)
| ARespond (r : Response)                     (* res.json(..) *)
| AEmit (s : string) (ev : EventName) (p : Payload)    (* socket.emit(ev, p) *)
| ABroadcast (room : string) (except : option string) (to : gset string)
             (ev : EventName) (p : Payload).  (* socket.to(room) / io.to(room) *)

#[global] Instance Response_eq_dec : EqDecision Response.
Proof. solve_decision. Defined.

#[global] Instance Action_eq_dec : EqDecision Action.
Proof. solve_decision. Defined.

(** ** The handler monad: state, log, and exceptions *)

Definition M (A : Type) : Type := State → option A * State * list Action.

Definition ret {A} (a : A) : M A := λ σ, (Some a, σ, []).

(** [throw]: the rest of the block is skipped. *)
Definition throw {A} : M A := λ σ, (None, σ, []).

Definition bind {A B} (m : M A) (k : A → M B) : M B :=
  λ σ, match m σ with
       | (Some a, σ1, l1) =>
           match k a σ1 with
           | (r, σ2, l2) => (r, σ2, l1 ++ l2)
           end
       | (None, σ1, l1) => (None, σ1, l1)
       end.

(** [try { m } catch (error) { h }]: what [m] wrote before throwing stays. *)
Definition try_catch {A} (m : M A) (h : M A) : M A :=
  λ σ, match m σ with
       | (Some a, σ1, l1) => (Some a, σ1, l1)
       | (None, σ1, l1) =>
           match h σ1 with
           | (r, σ2, l2) => (r, σ2, l1 ++ l2)
           end
       end.

Definition get_state : M State := λ σ, (Some σ, σ, []).
Definition modify (f : State → State) : M unit := λ σ, (Some tt, f σ, []).
Definition tell (a : Action) : M unit := λ σ, (Some tt, σ, [a]).

Notation "x <- m ;; k" := (bind m (λ x, k))
  (at level 100, m at next level, right associativity).
Notation "m ;;; k" := (bind m (λ _, k))
  (at level 100, right associativity).

(** ** The environment of one handler run

    [clock k] is the server time at the [k]-th store call of the handler,
    [autoId] the identifier Firestore picks for an added document, and
    [fault] the index of the store call that throws, if any. *)

Record Env := {
  clock : nat → Z;
  autoId : string;
  fault : option nat
}.

Definition throws (env : Env) (k : nat) : bool :=
  bool_decide (fault env = Some k).

(** ** Firestore *)

(** [await db.collection('chats').doc(c).get()]; [None] when [!doc.exists]. *)
Definition chat_get (env : Env) (k : nat) (c : string) : M (option Chat) :=
  if throws env k then throw
  else σ <- get_state ;; ret (chats σ !! c).

(** [await chatRef.set(d)]. *)
Definition chat_set (env : Env) (k : nat) (c : string) (d : Chat) : M unit :=
  if throws env k then throw
  else modify (set_chats <[c := d]>) ;;; tell (ASetChat c d).

(** [await db.collection('chats').doc(c).update({lastMessage, lastMessageAt})];
    an update of a document that does not exist is rejected. *)
Definition chat_update (env : Env) (k : nat) (c : string) (lm : string) : M unit :=
  if throws env k then throw
  else
    σ <- get_state ;;
    match chats σ !! c with
    | None => throw
    | Some d =>
        modify (set_chats <[c := {| participants := participants d;
                                    createdAt := createdAt d;
                                    lastMessage := Some lm;
                                    lastMessageAt := Some (clock env k) |}]>) ;;;
        tell (AUpdateChat c lm (clock env k))
    end.

(** [await db.collection('messages').add(d)]: creates a document under an
    identifier chosen by the store; creation is rejected when a document of
    that identifier exists. *)
Definition messages_add (env : Env) (k : nat) (d : MessageData) : M string :=
  if throws env k then throw
  else
    σ <- get_state ;;
    match messages σ !! autoId env with
    | Some _ => throw
    | None =>
        modify (set_messages <[autoId env := d]>) ;;;
        tell (AAddMessage (autoId env) d) ;;;
        ret (autoId env)
    end.

(** [await messageRef.get()]. *)
Definition message_get (env : Env) (k : nat) (id : string) : M (option MessageData) :=
  if throws env k then throw
  else σ <- get_state ;; ret (messages σ !! id).

(** ** socket.io

    A socket is put in the room named by its own id when it connects;
    [socket.join] adds it to a room; when it closes it leaves every room
    before the 'disconnect' listeners run.  [socket.to(room).emit] reaches
    the members of [room] other than the socket, [io.to(room).emit] all of
    them, [socket.emit] the socket alone. *)

Definition room_add (s room : string) (r : gmap string (gset string)) :
    gmap string (gset string) :=
  <[room := {[s]} ∪ default ∅ (r !! room)]> r.

Definition socket_join (s room : string) : M unit :=
  modify (set_rooms (room_add s room)) ;;; tell (ARoomJoin s room).

Definition socket_emit (s : string) (ev : EventName) (p : Payload) : M unit :=
  tell (AEmit s ev p).

Definition socket_to_emit (s room : string) (ev : EventName) (p : Payload) : M unit :=
  σ <- get_state ;;
  tell (ABroadcast room (Some s) (members σ room ∖ {[s]}) ev p).

Definition io_to_emit (room : string) (ev : EventName) (p : Payload) : M unit :=
  σ <- get_state ;;
  tell (ABroadcast room None (members σ room) ev p).

Definition sio_connect (s : string) (σ : State) : State :=
  set_rooms (room_add s s) (set_sockets (λ ss, {[s]} ∪ ss) σ).

Definition sio_close (s : string) (σ : State) : State :=
  set_sockets (λ ss, ss ∖ {[s]}) (set_rooms (fmap (λ m, m ∖ {[s]})) σ).

(** ** The two maps of app.js *)

Definition activeUsers_set (u s : string) : M unit :=
  modify (set_activeUsers <[u := s]>) ;;; tell (ASetActive u s).

Definition userSockets_set (s u c : string) : M unit :=
  modify (set_userSockets <[s := (u, c)]>) ;;; tell (ASetSession s u c).

Definition activeUsers_delete (u : string) : M unit :=
  modify (set_activeUsers (delete u)) ;;; tell (ADelActive u).

Definition userSockets_delete (s : string) : M unit :=
  modify (set_userSockets (delete s)) ;;; tell (ADelSession s).

(** Reading a property of [data]: a TypeError when [data] is undefined. *)
Definition fields {A} (data : option A) : M A :=
  match data with
  | Some d => ret d
  | None => throw
  end.

(** ** The handlers of app.js *)

(** [socket.on('join', async (data) => ...)].  The assignments to
    [socket.userId] and [socket.chatId] are left out: nothing reads them. *)
Definition on_join (env : Env) (s : string) (data : option JoinData) : M unit :=
  try_catch
    (d <- fields data ;;
     let userId := jd_userId d in
     let chatId := jd_chatId d in
     if falsy userId || falsy chatId then
       socket_emit s EvError (PStr "UserId and chatId are required")
     else
       chatDoc <- chat_get env 0 (str chatId) ;;
       match chatDoc with
       | None => socket_emit s EvError (PStr "Chat not found")
       | Some chatData =>
           if negb (includes (participants chatData) (str userId)) then
             socket_emit s EvError (PStr "Not authorized for this chat")
           else
             socket_join s (str chatId) ;;;
             activeUsers_set (str userId) s ;;;
             userSockets_set s (str userId) (str chatId) ;;;
             socket_to_emit s (str chatId) EvUserOnline (PUser (str userId)) ;;;
             socket_emit s EvJoined (PJoined (str chatId) (str userId))
       end)
    (socket_emit s EvError (PStr "Failed to join chat")).

(** [socket.on('sendMessage', async (data) => ...)]. *)
Definition on_sendMessage (env : Env) (s : string) (data : option SendData) : M unit :=
  try_catch
    (d <- fields data ;;
     let message := sd_message d in
     let timestamp := sd_timestamp d in
     σ <- get_state ;;
     let session := userSockets σ !! s in
     let userId := fst <$> session in
     let chatId := snd <$> session in
     if falsy userId || falsy chatId then
       socket_emit s EvError (PStr "Not properly connected to chat")
     else if falsy message || falsy (Some (trim (str message))) then
       socket_emit s EvError (PStr "Message cannot be empty")
     else
       let messageData :=
         {| senderId := str userId;
            message := trim (str message);
            timestamp := if falsy_num timestamp then clock env 0
                         else default 0%Z timestamp;
            chatId := str chatId |} in
       id <- messages_add env 0 messageData ;;
       messageDoc <- message_get env 1 id ;;
       let savedMessage := PSaved id messageDoc in
       chat_update env 2 (str chatId) (trim (str message)) ;;;
       io_to_emit (str chatId) EvNewMessage savedMessage)
    (socket_emit s EvError (PStr "Failed to send message")).

(** [socket.on('typing', (data) => ...)]: no try block. *)
Definition on_typing (s : string) (data : option TypingData) : M unit :=
  σ <- get_state ;;
  let session := userSockets σ !! s in
  let userId := fst <$> session in
  let chatId := snd <$> session in
  if negb (falsy userId) && negb (falsy chatId) then
    d <- fields data ;;
    socket_to_emit s (str chatId) EvUserTyping (PTyping (str userId) (td_isTyping d))
  else ret tt.

(** [socket.on('disconnect', () => ...)]. *)
Definition on_disconnect (s : string) : M unit :=
  σ <- get_state ;;
  match userSockets σ !! s with
  | Some (userId, chatId) =>
      activeUsers_delete userId ;;;
      userSockets_delete s ;;;
      socket_to_emit s chatId EvUserOffline (PUser userId)
  | None => ret tt
  end.

(** [app.post('/api/chats', async (req, res) => ...)]; [body] is
    [req.body.participants]. *)
Definition post_chats (env : Env) (body : option (list string)) : M unit :=
  try_catch
    (match body with
     | None => tell (ARespond (Bad400 "Exactly 2 participants required"))
     | Some ps =>
         if negb (bool_decide (length ps = 2)) then
           tell (ARespond (Bad400 "Exactly 2 participants required"))
         else
           let sortedParticipants := sort ps in
           let chatId := join "_" sortedParticipants in
           chatDoc <- chat_get env 0 chatId ;;
           match chatDoc with
           | None =>
               chat_set env 1 chatId
                 {| participants := sortedParticipants;
                    createdAt := clock env 1;
                    lastMessage := None;
                    lastMessageAt := None |}
           | Some _ => ret tt
           end ;;;
           tell (ARespond (Ok200 chatId sortedParticipants))
     end)
    (tell (ARespond (Fail500 "Failed to create chat"))).

(** ** The server as a transition system *)

Inductive Event :=
| Connect (s : string)                              (* io.on('connection') *)
| Join (s : string) (data : option JoinData)
| SendMessage (s : string) (data : option SendData)
| Typing (s : string) (data : option TypingData)
| Disconnect (s : string)
| PostChats (body : option (list string)).

(** socket.io hands a client event to the listeners of a connected socket
    only. *)
Definition connected (s : string) (m : M unit) : M unit :=
  σ <- get_state ;;
  if bool_decide (s ∈ sockets σ) then m else ret tt.

Definition dispatch (env : Env) (e : Event) : M unit :=
  match e with
  | Connect s =>
      σ <- get_state ;;
      if bool_decide (s ∈ sockets σ) then ret tt else modify (sio_connect s)
  | Join s data => connected s (on_join env s data)
  | SendMessage s data => connected s (on_sendMessage env s data)
  | Typing s data => connected s (on_typing s data)
  | Disconnect s => connected s (modify (sio_close s) ;;; on_disconnect s)
  | PostChats body => post_chats env body
  end.

(** A run of the server in which no handler is interleaved with another:
    each runs to completion, its awaits included, before the next event is
    taken ([play] below has the interleavings).  An exception no handler
    catches ends the run. *)
Fixpoint run (tr : list (Env * Event)) : M unit :=
  match tr with
  | [] => ret tt
  | (env, e) :: tr' => dispatch env e ;;; run tr'
  end.

(** The server starts with empty maps, no socket, and whatever the store
    holds. *)
Definition initial (cs : gmap string Chat) (ms : gmap string MessageData) : State :=
  {| activeUsers := ∅; userSockets := ∅; sockets := ∅; rooms := ∅;
     chats := cs; messages := ms |}.

Definition reachable (σ : State) : Prop :=
  ∃ cs ms tr log, run tr (initial cs ms) = (Some tt, σ, log).

(** [lookup(connectionRef)]: [userSockets.get(socket.id)]. *)
Definition lookup_session (σ : State) (s : string) : option (string * string) :=
  userSockets σ !! s.

(** The deliveries of a log: who is sent which event. *)
Definition deliveries (a : Action) : list (string * EventName * Payload) :=
  match a with
  | AEmit s ev p => [(s, ev, p)]
  | ABroadcast _ _ to ev p => (λ r, (r, ev, p)) <$> elements to
  | _ => []
  end.

Definition delivered (l : list Action) : list (string * EventName * Payload) :=
  l ≫= deliveries.


(** ** The Session Registry operations of the spec, as app.js performs them *)

(** [register]: [activeUsers.set(userId, socket.id)] followed by
    [userSockets.set(socket.id, { userId, chatId })]. *)
Definition register (s u c : string) (σ : State) : State :=
  set_userSockets <[s := (u, c)]> (set_activeUsers <[u := s]> σ).

(** [unregister]: [activeUsers.delete(userId)] followed by
    [userSockets.delete(socket.id)]. *)
Definition unregister (s u : string) (σ : State) : State :=
  set_userSockets (delete s) (set_activeUsers (delete u) σ).

(** The two maps agree: [u] is bound to [s] exactly when [s] is bound to a
    session of [u]. *)
Definition lockstep (σ : State) : Prop :=
  ∀ u s, activeUsers σ !! u = Some s ↔ ∃ c, userSockets σ !! s = Some (u, c).

(** A registration of [u] from [s] that neither moves [u] away from
    another socket nor changes the user of [s]. *)
Definition compatible (σ : State) (s u : string) : bool :=
  bool_decide (activeUsers σ !! u = None ∨ activeUsers σ !! u = Some s)
  && bool_decide (userSockets σ !! s = None ∨ fst <$> userSockets σ !! s = Some u).

Definition compatible_action (σ : State) (a : Action) : bool :=
  match a with
  | ASetSession s u _ => compatible σ s u
  | _ => true
  end.

(** Runs in which every registration is compatible with the state it is
    made in. *)
Fixpoint disciplined (tr : list (Env * Event)) (σ : State) : bool :=
  match tr with
  | [] => true
  | (env, e) :: tr' =>
      match dispatch env e σ with
      | (r, σ', l) => forallb (compatible_action σ) l && disciplined tr' σ'
      end
  end.

(** The property names of the object a payload is; a bare string has none. *)
Definition fields_of (p : Payload) : list string :=
  match p with
  | PStr _ => []
  | PUser _ => ["userId"]
  | PJoined _ _ => ["chatId"; "userId"]
  | PTyping _ _ => ["userId"; "isTyping"]
  | PSaved _ None => ["id"]
  | PSaved _ (Some _) => ["id"; "senderId"; "message"; "timestamp"; "chatId"]
  end.

(** A tagged error: an object with a kind and a message. *)
Definition tagged (p : Payload) : Prop :=
  "kind" ∈ fields_of p ∧ "message" ∈ fields_of p.

(** A handler run succeeded when it confirmed the join or broadcast the
    message. *)
Definition is_success (a : Action) : bool :=
  match a with
  | AEmit _ EvJoined _ => true
  | ABroadcast _ _ _ EvNewMessage _ => true
  | _ => false
  end.

Definition succeeded (l : list Action) : bool := existsb is_success l.


(** The error taxonomy of the spec.  app.js has no such kinds: it sends a
    message string alone.  [spec_error_kind] is the reading of the spec's
    words that gives each failure message of app.js the kind the spec names
    for it; it is no part of the program. *)
Inductive ErrorKind :=
| ValidationError | NotFoundError | AuthorizationError | NotConnectedError.

Definition spec_error_kind (msg : string) : option ErrorKind :=
  if bool_decide (msg = "UserId and chatId are required") then Some ValidationError
  else if bool_decide (msg = "Message cannot be empty") then Some ValidationError
  else if bool_decide (msg = "Chat not found") then Some NotFoundError
  else if bool_decide (msg = "Not authorized for this chat") then Some AuthorizationError
  else if bool_decide (msg = "Not properly connected to chat") then Some NotConnectedError
  else None.

(** The chat identifier of a participant pair. *)
Definition chatId_of (ps : list string) : string := join "_" (sort ps).

(** A string of white space only. *)
Fixpoint all_white (s : string) : bool :=
  match s with
  | EmptyString => true
  | String a r => is_white a && all_white r
  end.

(** The state a successful join leaves. *)
Definition joined (s u c : string) (σ : State) : State :=
  register s u c (set_rooms (room_add s c) σ).

(** The log a successful join writes. *)
Definition join_log (s u c : string) (σ : State) : list Action :=
  [ ARoomJoin s c; ASetActive u s; ASetSession s u c;
    ABroadcast c (Some s) (members σ c ∖ {[s]}) EvUserOnline (PUser u);
    AEmit s EvJoined (PJoined c u) ].

(** The record the sendMessage handler builds for sender [u] in chat [c]. *)
Definition message_data (env : Env) (u c : string) (d : SendData) : MessageData :=
  {| senderId := u;
     message := trim (str (sd_message d));
     timestamp := if falsy_num (sd_timestamp d) then clock env 0
                  else default 0%Z (sd_timestamp d);
     chatId := c |}.

(** The store after the record is added, and after the summary is updated. *)
Definition persisted (env : Env) (m : MessageData) (σ : State) : State :=
  set_messages <[autoId env := m]> σ.

Definition summarised (env : Env) (c : string) (lm : string) (chat : Chat)
    (σ : State) : State :=
  set_chats <[c := {| participants := participants chat;
                      createdAt := createdAt chat;
                      lastMessage := Some lm;
                      lastMessageAt := Some (clock env 2) |}]> σ.

(** The log a successful sendMessage writes. *)
Definition send_log (env : Env) (c : string) (m : MessageData) (σ : State) :
    list Action :=
  [ AAddMessage (autoId env) m;
    AUpdateChat c (message m) (clock env 2);
    ABroadcast c None (members σ c) EvNewMessage (PSaved (autoId env) (Some m)) ].

Definition send_failed (s : string) : Action :=
  AEmit s EvError (PStr "Failed to send message").

(** The log a disconnect of a socket with session [(u, c)] writes. *)
Definition disconnect_log (s u c : string) (σ : State) : list Action :=
  [ ADelActive u; ADelSession s;
    ABroadcast c (Some s) (members σ c ∖ {[s]}) EvUserOffline (PUser u) ].

(** What a registered session guarantees in a reachable state. *)
Definition session_inv (σ : State) : Prop :=
  ∀ s u c, userSockets σ !! s = Some (u, c) →
    u ≠ "" ∧ c ≠ "" ∧ s ∈ sockets σ ∧ s ∈ members σ c ∧ is_Some (chats σ !! c).

(** The store only grows. *)
Definition store_grows (σ σ' : State) : Prop :=
  ∀ c, is_Some (chats σ !! c) → is_Some (chats σ' !! c).

(** The outcome of a handler that refuses a request from [s] with [msg]:
    normal return, state untouched, one 'error' event to [s]. *)
Definition refused (s msg : string) (σ : State) : option unit * State * list Action :=
  (Some tt, σ, [AEmit s EvError (PStr msg)]).

(** A handler run that returned normally and sent one 'error' event, to
    [s], whose payload satisfies [shape]. *)
Definition reports_error (shape : Payload → Prop) (s : string)
    (out : option unit * State * list Action) : Prop :=
  out.1.1 = Some tt ∧ ∃ p, delivered out.2 = [(s, EvError, p)] ∧ shape p.

(** A bare message string. *)
Definition bare (p : Payload) : Prop := ∃ msg, p = PStr msg.

(** A broadcast reaches members of its room only. *)
Definition within_rooms (σ : State) (a : Action) : Prop :=
  match a with
  | ABroadcast room _ to _ _ => to ⊆ members σ room
  | _ => True
  end.

(** C2 as the spec states it: whoever is sent a broadcast made for a room
    has, in the registry, a session whose chat is that room. *)
Definition broadcasts_follow_registry : Prop :=
  ∀ σ env e r σ' l, reachable σ → dispatch env e σ = (r, σ', l) →
    ∀ room ex to ev p x, ABroadcast room ex to ev p ∈ l → x ∈ to →
      ∃ u, lookup_session σ' x = Some (u, room).

(** The payload of a join lacks userId or chatId; a join without payload
    lacks both. *)
Definition missing_field (data : option JoinData) : Prop :=
  match data with
  | None => True
  | Some d => jd_userId d = None ∨ jd_chatId d = None
  end.

(** C5 as the spec states its first case: every join with a missing field
    is refused with a ValidationError. *)
Definition missing_field_is_validation_error : Prop :=
  ∀ env s data σ, missing_field data →
    ∃ msg, on_join env s data σ = refused s msg σ ∧
           spec_error_kind msg = Some ValidationError.

(** ** The handlers between their awaits

    An async handler of app.js runs up to its next [await], where it hands a
    request to the store and yields; other handlers run meanwhile; the store
    carries the request out at some later moment, and later still the
    handler goes on with the answer.  The three parts are separate moves of
    the server below. *)

(** A store call a handler awaits. *)
Inductive StoreReq :=
| RGetChat (c : string)                        (* doc(c).get() *)
| RSetChat (c : string) (ps : list string)     (* chatRef.set({ participants, .. }) *)
| RUpdateChat (c lm : string)                  (* doc(c).update({ lastMessage, .. }) *)
| RAddMessage (u c : string) (d : SendData)    (* collection('messages').add(..) *)
| RGetMessage (id : string).                   (* messageRef.get() *)

(** What the awaited call gives back. *)
Inductive StoreRes :=
| SThrow
| SChat (doc : option Chat)
| SDone
| SId (id : string)
| SMessage (doc : option MessageData).

(** What is left of a handler after an await, with the constants it holds. *)
Inductive Cont :=
| KJoin (s u c : string)                    (* join, after chatRef.get() *)
| KSendAdded (s c lm : string)              (* sendMessage, after add() *)
| KSendRead (s c lm id : string)            (* sendMessage, after messageRef.get() *)
| KSendUpdated (s c : string) (saved : Payload)   (* sendMessage, after update() *)
| KPostRead (c : string) (ps : list string)       (* POST, after chatRef.get() *)
| KPostWritten (c : string) (ps : list string).   (* POST, after chatRef.set() *)

(** A handler either has finished or awaits its [k]-th store call. *)
Definition Await : Type := option (StoreReq * nat * Cont).

Definition finished : M Await := ret None.

Definition await (req : StoreReq) (k : nat) (cont : Cont) : M Await :=
  ret (Some (req, k, cont)).

Definition answer {A} (f : A → StoreRes) (m : M A) (σ : State) :
    StoreRes * State * list Action :=
  match m σ with
  | (Some a, σ', l) => (f a, σ', l)
  | (None, σ', l) => (SThrow, σ', l)
  end.

(** The store carries out a request. *)
Definition exec (env : Env) (k : nat) (req : StoreReq) (σ : State) :
    StoreRes * State * list Action :=
  match req with
  | RGetChat c => answer SChat (chat_get env k c) σ
  | RSetChat c ps =>
      answer (λ _, SDone)
        (chat_set env k c {| participants := ps; createdAt := clock env k;
                             lastMessage := None; lastMessageAt := None |}) σ
  | RUpdateChat c lm => answer (λ _, SDone) (chat_update env k c lm) σ
  | RAddMessage u c d => answer SId (messages_add env k (message_data env u c d)) σ
  | RGetMessage id => answer SMessage (message_get env k id) σ
  end.

(** [socket.join] by a handler that may run after its socket has closed: a
    closed socket is in no room. *)
Definition socket_join_open (s room : string) : M unit :=
  σ <- get_state ;;
  if bool_decide (s ∈ sockets σ) then socket_join s room
  else tell (ARoomJoin s room).

(** The join handler up to [await chatRef.get()]. *)
Definition join_start (s : string) (data : option JoinData) : M Await :=
  try_catch
    (d <- fields data ;;
     let userId := jd_userId d in
     let chatId := jd_chatId d in
     if falsy userId || falsy chatId then
       socket_emit s EvError (PStr "UserId and chatId are required") ;;; finished
     else
       await (RGetChat (str chatId)) 0 (KJoin s (str userId) (str chatId)))
    (socket_emit s EvError (PStr "Failed to join chat") ;;; finished).

(** The sendMessage handler up to [await ...add(messageData)]. *)
Definition send_start (s : string) (data : option SendData) : M Await :=
  try_catch
    (d <- fields data ;;
     let message := sd_message d in
     σ <- get_state ;;
     let session := userSockets σ !! s in
     let userId := fst <$> session in
     let chatId := snd <$> session in
     if falsy userId || falsy chatId then
       socket_emit s EvError (PStr "Not properly connected to chat") ;;; finished
     else if falsy message || falsy (Some (trim (str message))) then
       socket_emit s EvError (PStr "Message cannot be empty") ;;; finished
     else
       await (RAddMessage (str userId) (str chatId) d) 0
         (KSendAdded s (str chatId) (trim (str message))))
    (socket_emit s EvError (PStr "Failed to send message") ;;; finished).

(** The POST handler up to [await chatRef.get()]. *)
Definition post_start (body : option (list string)) : M Await :=
  try_catch
    (match body with
     | None => tell (ARespond (Bad400 "Exactly 2 participants required")) ;;; finished
     | Some ps =>
         if negb (bool_decide (length ps = 2)) then
           tell (ARespond (Bad400 "Exactly 2 participants required")) ;;; finished
         else
           let sortedParticipants := sort ps in
           let chatId := join "_" sortedParticipants in
           await (RGetChat chatId) 0 (KPostRead chatId sortedParticipants)
     end)
    (tell (ARespond (Fail500 "Failed to create chat")) ;;; finished).

(** A handler goes on with the answer of the store; an answer [SThrow] (or
    one of another call) throws into the handler's catch block. *)
Definition resume (cont : Cont) (res : StoreRes) : M Await :=
  match cont with
  | KJoin s u c =>
      try_catch
        (match res with
         | SChat None => socket_emit s EvError (PStr "Chat not found") ;;; finished
         | SChat (Some chatData) =>
             if negb (includes (participants chatData) u) then
               socket_emit s EvError (PStr "Not authorized for this chat") ;;; finished
             else
               socket_join_open s c ;;;
               activeUsers_set u s ;;;
               userSockets_set s u c ;;;
               socket_to_emit s c EvUserOnline (PUser u) ;;;
               socket_emit s EvJoined (PJoined c u) ;;;
               finished
         | _ => throw
         end)
        (socket_emit s EvError (PStr "Failed to join chat") ;;; finished)
  | KSendAdded s c lm =>
      try_catch
        (match res with
         | SId id => await (RGetMessage id) 1 (KSendRead s c lm id)
         | _ => throw
         end)
        (socket_emit s EvError (PStr "Failed to send message") ;;; finished)
  | KSendRead s c lm id =>
      try_catch
        (match res with
         | SMessage messageDoc =>
             await (RUpdateChat c lm) 2 (KSendUpdated s c (PSaved id messageDoc))
         | _ => throw
         end)
        (socket_emit s EvError (PStr "Failed to send message") ;;; finished)
  | KSendUpdated s c savedMessage =>
      try_catch
        (match res with
         | SDone => io_to_emit c EvNewMessage savedMessage ;;; finished
         | _ => throw
         end)
        (socket_emit s EvError (PStr "Failed to send message") ;;; finished)
  | KPostRead c ps =>
      try_catch
        (match res with
         | SChat None => await (RSetChat c ps) 1 (KPostWritten c ps)
         | SChat (Some _) => tell (ARespond (Ok200 c ps)) ;;; finished
         | _ => throw
         end)
        (tell (ARespond (Fail500 "Failed to create chat")) ;;; finished)
  | KPostWritten c ps =>
      try_catch
        (match res with
         | SDone => tell (ARespond (Ok200 c ps)) ;;; finished
         | _ => throw
         end)
        (tell (ARespond (Fail500 "Failed to create chat")) ;;; finished)
  end.

(** A handler that awaits: its request, and the answer once the store has
    carried the request out. *)
Record Task := {
  task_cont : Cont;
  task_req : StoreReq;
  task_index : nat;
  task_res : option StoreRes
}.

(** The server: its state and the handlers that await. *)
Record Server := {
  state : State;
  pending : list Task
}.

Inductive Move :=
| MEvent (e : Event)              (* an event arrives; its handler starts *)
| MStore (i : nat) (env : Env)    (* the store carries out the request of task i *)
| MResume (i : nat).              (* the handler of task i goes on *)

Definition connected_start (s : string) (m : M Await) : M Await :=
  σ <- get_state ;;
  if bool_decide (s ∈ sockets σ) then m else finished.

(** The part of the handler of [e] that runs when [e] arrives. *)
Definition start (e : Event) : M Await :=
  match e with
  | Connect s =>
      σ <- get_state ;;
      (if bool_decide (s ∈ sockets σ) then ret tt else modify (sio_connect s)) ;;;
      finished
  | Join s data => connected_start s (join_start s data)
  | SendMessage s data => connected_start s (send_start s data)
  | Typing s data => connected s (on_typing s data) ;;; finished
  | Disconnect s => connected s (modify (sio_close s) ;;; on_disconnect s) ;;; finished
  | PostChats body => post_start body
  end.

Definition enqueue (a : Await) (ts : list Task) : list Task :=
  match a with
  | Some (req, k, cont) =>
      ts ++ [{| task_cont := cont; task_req := req; task_index := k;
                task_res := None |}]
  | None => ts
  end.

(** One move of the server; a move that names no suitable task does
    nothing. *)
Definition move (m : Move) (srv : Server) : option unit * Server * list Action :=
  match m with
  | MEvent e =>
      match start e (state srv) with
      | (Some a, σ, l) => (Some tt, {| state := σ; pending := enqueue a (pending srv) |}, l)
      | (None, σ, l) => (None, {| state := σ; pending := pending srv |}, l)
      end
  | MStore i env =>
      match pending srv !! i with
      | Some t =>
          match task_res t with
          | None =>
              match exec env (task_index t) (task_req t) (state srv) with
              | (res, σ, l) =>
                  (Some tt,
                   {| state := σ;
                      pending := <[i := {| task_cont := task_cont t;
                                           task_req := task_req t;
                                           task_index := task_index t;
                                           task_res := Some res |}]> (pending srv) |},
                   l)
              end
          | Some _ => (Some tt, srv, [])
          end
      | None => (Some tt, srv, [])
      end
  | MResume i =>
      match pending srv !! i with
      | Some t =>
          match task_res t with
          | Some res =>
              match resume (task_cont t) res (state srv) with
              | (Some a, σ, l) =>
                  (Some tt,
                   {| state := σ; pending := enqueue a (delete i (pending srv)) |}, l)
              | (None, σ, l) =>
                  (None, {| state := σ; pending := delete i (pending srv) |}, l)
              end
          | None => (Some tt, srv, [])
          end
      | None => (Some tt, srv, [])
      end
  end.

(** A schedule of moves; an exception no handler catches ends it. *)
Fixpoint play (ms : list Move) (srv : Server) : option unit * Server * list Action :=
  match ms with
  | [] => (Some tt, srv, [])
  | m :: ms' =>
      match move m srv with
      | (Some _, srv1, l1) =>
          match play ms' srv1 with
          | (r, srv2, l2) => (r, srv2, l1 ++ l2)
          end
      | (None, srv1, l1) => (None, srv1, l1)
      end
  end.

(** The server starts with no handler awaiting. *)
Definition boot (cs : gmap string Chat) (ms : gmap string MessageData) : Server :=
  {| state := initial cs ms; pending := [] |}.

(** The schedule that lets one handler run through before anything else
    happens: the event, then three times store and resume. *)
Definition alone (env : Env) (e : Event) : list Move :=
  [MEvent e; MStore 0 env; MResume 0; MStore 0 env; MResume 0;
   MStore 0 env; MResume 0].

(** ** Sample data *)

Definition env0 : Env := {| clock := λ _, 0%Z; autoId := "m0"; fault := None |}.
Definition env_fail (k : nat) : Env :=
  {| clock := λ _, 0%Z; autoId := "m0"; fault := Some k |}.

Definition join_as (u c : string) : option JoinData :=
  Some {| jd_userId := Some u; jd_chatId := Some c |}.

Definition say (m : string) : option SendData :=
  Some {| sd_message := Some m; sd_timestamp := None |}.

(** Two chats are created, then A joins "a_b" as a and B joins it as b. *)
Definition tr_ab : list (Env * Event) :=
  [ (env0, PostChats (Some ["b"; "a"]));
    (env0, PostChats (Some ["a"; "c"]));
    (env0, Connect "A");
    (env0, Connect "B");
    (env0, Join "A" (join_as "a" "a_b"));
    (env0, Join "B" (join_as "b" "a_b")) ].

Definition st_ab : State := Eval vm_compute in (run tr_ab (initial ∅ ∅)).1.2.

Definition log_ab : list Action := Eval vm_compute in (run tr_ab (initial ∅ ∅)).2.

(** Both sockets connected, nobody joined yet. *)
Definition tr_open : list (Env * Event) := take 4 tr_ab.
Definition st_open : State := Eval vm_compute in (run tr_open (initial ∅ ∅)).1.2.

(** A alone has joined. *)
Definition st_a : State :=
  Eval vm_compute in (dispatch env0 (Join "A" (join_as "a" "a_b")) st_open).1.2.

(** The user joins on A, then on B; A closes. *)
Definition tr_stale : list (Env * Event) :=
  tr_open ++
  [ (env0, Join "A" (join_as "a" "a_b"));
    (env0, Join "B" (join_as "a" "a_c"));
    (env0, Disconnect "A") ].

Definition st_stale : State := Eval vm_compute in (run tr_stale (initial ∅ ∅)).1.2.

(** Socket A joins "a_b" as a and then, on the same socket, as b. *)
Definition tr_swap : list (Env * Event) :=
  tr_open ++
  [ (env0, Join "A" (join_as "a" "a_b"));
    (env0, Join "A" (join_as "b" "a_b")) ].

Definition st_swap : State := Eval vm_compute in (run tr_swap (initial ∅ ∅)).1.2.

(** A joins "a_b" and then, on the same socket, "a_c". *)
Definition tr_rejoin : list (Env * Event) :=
  tr_open ++
  [ (env0, Join "A" (join_as "a" "a_b"));
    (env0, Join "A" (join_as "a" "a_c")) ].

Definition st_rejoin : State := Eval vm_compute in (run tr_rejoin (initial ∅ ∅)).1.2.

(** ** The chat listing of the HTTP API *)

Inductive ChatsResponse :=
| ChatsOk (found : list (string * Chat)) (* res.json([{ id, ...data }, ..]) *)
| ChatsFail500 (error : string).         (* res.status(500).json({ error }) *)

(** [await chatsRef.where('participants', 'array-contains', u).get()]: the
    documents whose participants contain [u].  The order in which the store
    lists them is not modelled. *)
Definition chats_where_contains (env : Env) (k : nat) (u : string) :
    M (list (string * Chat)) :=
  if throws env k then throw
  else
    σ <- get_state ;;
    ret (filter (λ doc, u ∈ participants doc.2) (map_to_list (chats σ))).

(** [snapshot.forEach(doc => chats.push({ id: doc.id, ...doc.data() }))]. *)
Definition push_all (snapshot : list (string * Chat)) : list (string * Chat) :=
  foldl (λ found doc, found ++ [(doc.1, doc.2)]) [] snapshot.

(** [app.get('/api/chats/:userId', async (req, res) => ...)]. *)
Definition get_chats (env : Env) (userId : string) : M ChatsResponse :=
  try_catch
    (snapshot <- chats_where_contains env 0 userId ;;
     ret (ChatsOk (push_all snapshot)))
    (ret (ChatsFail500 "Failed to fetch chats")).



(** A stored message stays as it is. *)
Definition messages_kept (σ σ' : State) : Prop :=
  ∀ id m, messages σ !! id = Some m → messages σ' !! id = Some m.



(** Every member of a room is a connected socket. *)
Definition rooms_connected (σ : State) : Prop :=
  ∀ x room, x ∈ members σ room → x ∈ sockets σ.

(** The socket an event comes from. *)
Definition socket_of (e : Event) : option string :=
  match e with
  | Connect s | Join s _ | SendMessage s _ | Typing s _ | Disconnect s => Some s
  | PostChats _ => None
  end.

(** The chat record the HTTP handler creates for a pair. *)
Definition new_chat (env : Env) (ps : list string) : Chat :=
  {| participants := sort ps; createdAt := clock env 1;
     lastMessage := None; lastMessageAt := None |}.

(** An emission is for the socket [o] whose event is being handled and is
    an 'error' or a 'joined'; a broadcast is a newMessage to the whole room
    or a presence or typing event to the room without that socket. *)
Definition addressed (o : option string) (a : Action) : Prop :=
  match a with
  | AEmit x ev _ => o = Some x ∧ (ev = EvError ∨ ev = EvJoined)
  | ABroadcast _ ex _ ev _ =>
      match ev with
      | EvNewMessage => ex = None
      | EvUserOnline | EvUserOffline | EvUserTyping => ex = o ∧ o ≠ None
      | EvError | EvJoined => False
      end
  | _ => True
  end.

(** Two states that differ in activeUsers at most. *)
Definition same_but_activeUsers (σ1 σ2 : State) : Prop :=
  userSockets σ1 = userSockets σ2 ∧ sockets σ1 = sockets σ2 ∧
  rooms σ1 = rooms σ2 ∧ chats σ1 = chats σ2 ∧ messages σ1 = messages σ2.

(** ** Invariants of the server between its awaits *)

(** A session names a user and a chat, neither empty, and the chat exists. *)
Definition session_wf (σ : State) : Prop :=
  ∀ s u c, userSockets σ !! s = Some (u, c) →
    u ≠ "" ∧ c ≠ "" ∧ is_Some (chats σ !! c).

(** A join that awaits its read holds ids that are not empty, and an
    answer with a document means that the chat exists. *)
Definition task_wf (σ : State) (t : Task) : Prop :=
  match task_cont t with
  | KJoin s u c =>
      u ≠ "" ∧ c ≠ "" ∧ task_req t = RGetChat c ∧
      ∀ d, task_res t = Some (SChat (Some d)) → is_Some (chats σ !! c)
  | _ => True
  end.

Definition server_wf (srv : Server) : Prop :=
  session_wf (state srv) ∧ Forall (task_wf (state srv)) (pending srv).

(** The schedule of a run that handles one event after the other: every
    handler runs through before the next event is taken. *)
Definition serial (tr : list (Env * Event)) : list Move :=
  flat_map (λ x, alone x.1 x.2) tr.

(** An environment whose clock reads [t]. *)
Definition env_at (t : Z) : Env := {| clock := λ _, t; autoId := "m0"; fault := None |}.

(** A chat is created; A connects, asks to join it and closes before the
    store has answered the join. *)
Definition sched_late : list Move :=
  alone env0 (PostChats (Some ["a"; "b"])) ++
  [MEvent (Connect "A"); MEvent (Join "A" (join_as "a" "a_b"));
   MEvent (Disconnect "A"); MStore 0 env0; MResume 0].
Definition st_late : State := Eval vm_compute in state (play sched_late (boot ∅ ∅)).1.2.

(** Two POST requests for one pair read before either writes; the first
    then writes ([sched_first]), and later the second ([sched_second]). *)
Definition sched_first : list Move :=
  [MEvent (PostChats (Some ["a"; "b"])); MEvent (PostChats (Some ["b"; "a"]));
   MStore 0 env0; MStore 1 env0; MResume 0; MStore 1 (env_at 1); MResume 1].
Definition sched_second : list Move :=
  [MResume 0; MStore 0 (env_at 2); MResume 0].
Definition srv_first : Server := Eval vm_compute in (play sched_first (boot ∅ ∅)).1.2.
Definition srv_second : Server := Eval vm_compute in (play sched_second srv_first).1.2.

(** * Properties *)

(** ** Unfolding the monad *)

Ltac unfold_m :=
  unfold fields, socket_emit, socket_join, socket_to_emit, io_to_emit,
    activeUsers_set, userSockets_set, activeUsers_delete, userSockets_delete,
    chat_get, chat_set, chat_update, messages_add, message_get in *;
  unfold try_catch, bind, get_state, modify, tell, ret, throw in *.

Ltac simpl_m :=
  cbn [fst snd negb orb andb app str falsy falsy_num from_option id
       fmap option_fmap option_map
       jd_userId jd_chatId sd_message sd_timestamp td_isTyping] in *.

(** Closed decidable facts, by evaluation. *)
Ltac decide_it :=
  match goal with
  | |- ?P => apply (bool_decide_unpack P); vm_compute; exact I
  end.

Lemma throws_false env k : fault env ≠ Some k → throws env k = false.
Proof. intros H. unfold throws. by apply bool_decide_eq_false_2. Qed.

Lemma throws_true env k : fault env = Some k → throws env k = true.
Proof. intros H. unfold throws. by apply bool_decide_eq_true_2. Qed.

Lemma falsy_false x : falsy x = false ↔ ∃ s, x = Some s ∧ s ≠ "".
Proof.
  destruct x as [s|]; simpl.
  - rewrite bool_decide_eq_false. split; [eauto |].
    intros (x & Hx & Hne). congruence.
  - split; [done | intros (? & ? & ?); done].
Qed.

Lemma members_eq σ σ' room : rooms σ' = rooms σ → members σ' room = members σ room.
Proof. unfold members. by intros ->. Qed.

Lemma members_room_add σ s c room :
  members (set_rooms (room_add s c) σ) room =
  if decide (c = room) then {[s]} ∪ members σ room else members σ room.
Proof.
  unfold members, set_rooms, room_add. simpl.
  destruct (decide (c = room)) as [->|Hne].
  - by rewrite lookup_insert_eq.
  - by rewrite lookup_insert_ne.
Qed.

Lemma members_leave σ s room :
  members (set_rooms (fmap (λ m, m ∖ {[s]})) σ) room = members σ room ∖ {[s]}.
Proof.
  unfold members, set_rooms. cbn [rooms]. rewrite lookup_fmap.
  destruct (rooms σ !! room); cbn [fmap option_fmap option_map from_option id]; [done|].
  apply set_eq. intros x. rewrite elem_of_difference, elem_of_empty. tauto.
Qed.

(** ** The join handler *)

Lemma on_join_undefined env s σ :
  on_join env s None σ = (Some tt, σ, [AEmit s EvError (PStr "Failed to join chat")]).
Proof. reflexivity. Qed.

Lemma on_join_missing env s d σ :
  falsy (jd_userId d) || falsy (jd_chatId d) = true →
  on_join env s (Some d) σ =
    (Some tt, σ, [AEmit s EvError (PStr "UserId and chatId are required")]).
Proof. intros H. unfold on_join. unfold_m. cbv beta iota zeta. by rewrite H. Qed.

Lemma on_join_store_fault env s u c σ :
  u ≠ "" → c ≠ "" → fault env = Some 0 →
  on_join env s (Some {| jd_userId := Some u; jd_chatId := Some c |}) σ =
    (Some tt, σ, [AEmit s EvError (PStr "Failed to join chat")]).
Proof.
  intros Hu Hc Hf. unfold on_join. unfold_m. simpl_m.
  rewrite !bool_decide_eq_false_2 by done. simpl_m.
  by rewrite (throws_true _ _ Hf).
Qed.

Lemma on_join_not_found env s u c σ :
  u ≠ "" → c ≠ "" → fault env ≠ Some 0 → chats σ !! c = None →
  on_join env s (Some {| jd_userId := Some u; jd_chatId := Some c |}) σ =
    (Some tt, σ, [AEmit s EvError (PStr "Chat not found")]).
Proof.
  intros Hu Hc Hf Hn. unfold on_join. unfold_m. simpl_m.
  rewrite !bool_decide_eq_false_2 by done. simpl_m.
  by rewrite (throws_false _ _ Hf), Hn.
Qed.

Lemma on_join_not_authorized env s u c chat σ :
  u ≠ "" → c ≠ "" → fault env ≠ Some 0 → chats σ !! c = Some chat →
  u ∉ participants chat →
  on_join env s (Some {| jd_userId := Some u; jd_chatId := Some c |}) σ =
    (Some tt, σ, [AEmit s EvError (PStr "Not authorized for this chat")]).
Proof.
  intros Hu Hc Hf Hn Hp. unfold on_join. unfold_m. simpl_m.
  rewrite !bool_decide_eq_false_2 by done. simpl_m.
  rewrite (throws_false _ _ Hf), Hn. unfold includes.
  by rewrite bool_decide_eq_false_2.
Qed.

Lemma on_join_success env s u c chat σ :
  u ≠ "" → c ≠ "" → fault env ≠ Some 0 → chats σ !! c = Some chat →
  u ∈ participants chat →
  on_join env s (Some {| jd_userId := Some u; jd_chatId := Some c |}) σ =
    (Some tt, joined s u c σ, join_log s u c σ).
Proof.
  intros Hu Hc Hf Hn Hp. unfold on_join. unfold_m. simpl_m.
  rewrite !bool_decide_eq_false_2 by done. simpl_m.
  rewrite (throws_false _ _ Hf), Hn. unfold includes.
  rewrite bool_decide_eq_true_2 by done. simpl_m.
  unfold join_log, joined, register.
  rewrite (members_eq (set_rooms (room_add s c) σ)) by done.
  rewrite members_room_add, decide_True by done.
  replace (({[s]} ∪ members σ c) ∖ {[s]}) with (members σ c ∖ {[s]}); [done|].
  apply set_eq. intros x. rewrite !elem_of_difference, elem_of_union. tauto.
Qed.

(** Every run of the join handler is one of the five above. *)
Lemma on_join_cases env s data σ :
  (∃ u c chat, data = Some {| jd_userId := Some u; jd_chatId := Some c |} ∧
     u ≠ "" ∧ c ≠ "" ∧ chats σ !! c = Some chat ∧ u ∈ participants chat ∧
     on_join env s data σ = (Some tt, joined s u c σ, join_log s u c σ))
  ∨ (∃ msg, on_join env s data σ = (Some tt, σ, [AEmit s EvError (PStr msg)])).
Proof.
  destruct data as [[ou oc]|]; [|right; eexists; apply on_join_undefined].
  destruct (falsy ou || falsy oc) eqn:Hf.
  { right. eexists. by apply on_join_missing. }
  apply orb_false_iff in Hf as [Hu Hc].
  apply falsy_false in Hu as (u & -> & Hu). apply falsy_false in Hc as (c & -> & Hc).
  destruct (decide (fault env = Some 0)) as [Hfl|Hfl].
  { right. eexists. by apply on_join_store_fault. }
  destruct (chats σ !! c) as [chat|] eqn:Hch.
  - destruct (decide (u ∈ participants chat)) as [Hp|Hp].
    + left. exists u, c, chat. repeat split; try done. by eapply on_join_success.
    + right. eexists. by eapply on_join_not_authorized.
  - right. eexists. by apply on_join_not_found.
Qed.

(** ** The sendMessage handler *)

Section send.
Context (env : Env) (s u c : string) (σ : State).
Hypothesis session : userSockets σ !! s = Some (u, c).
Hypothesis user_ok : u ≠ "".
Hypothesis chat_ok : c ≠ "".

Ltac start_send :=
  unfold on_sendMessage; unfold_m; simpl_m; rewrite session; simpl_m;
  rewrite ?(bool_decide_eq_false_2 (u = "")), ?(bool_decide_eq_false_2 (c = "")) by done;
  simpl_m.

Lemma on_sendMessage_empty d :
  falsy (sd_message d) || bool_decide (trim (str (sd_message d)) = "") = true →
  on_sendMessage env s (Some d) σ =
    (Some tt, σ, [AEmit s EvError (PStr "Message cannot be empty")]).
Proof. intros H. start_send. by rewrite H. Qed.


Lemma on_sendMessage_get_fails d :
  falsy (sd_message d) || bool_decide (trim (str (sd_message d)) = "") = false →
  messages σ !! autoId env = None → fault env = Some 1 →
  on_sendMessage env s (Some d) σ =
    (Some tt, persisted env (message_data env u c d) σ,
     [AAddMessage (autoId env) (message_data env u c d); send_failed s]).
Proof.
  intros H Hm Hf. start_send. rewrite H.
  rewrite (throws_false env 0), Hm by (rewrite Hf; done).
  by rewrite (throws_true _ _ Hf).
Qed.

Lemma on_sendMessage_update_fails d :
  falsy (sd_message d) || bool_decide (trim (str (sd_message d)) = "") = false →
  messages σ !! autoId env = None →
  fault env = Some 2 ∨ (fault env = None ∧ chats σ !! c = None) →
  on_sendMessage env s (Some d) σ =
    (Some tt, persisted env (message_data env u c d) σ,
     [AAddMessage (autoId env) (message_data env u c d); send_failed s]).
Proof.
  intros H Hm Hf. start_send. rewrite H.
  rewrite (throws_false env 0), Hm by (destruct Hf as [->|[-> _]]; done).
  rewrite (throws_false env 1) by (destruct Hf as [->|[-> _]]; done).
  destruct Hf as [Hf|[Hf Hc]].
  - by rewrite (throws_true _ _ Hf).
  - rewrite (throws_false env 2) by (rewrite Hf; done).
    unfold persisted, set_messages. cbn [chats]. by rewrite Hc.
Qed.

Lemma on_sendMessage_success d chat :
  falsy (sd_message d) || bool_decide (trim (str (sd_message d)) = "") = false →
  messages σ !! autoId env = None → fault env = None →
  chats σ !! c = Some chat →
  on_sendMessage env s (Some d) σ =
    (Some tt,
     summarised env c (trim (str (sd_message d))) chat
       (persisted env (message_data env u c d) σ),
     send_log env c (message_data env u c d) σ).
Proof.
  intros H Hm Hf Hc. start_send. rewrite H.
  rewrite !throws_false, Hm by (rewrite Hf; done).
  unfold set_messages. cbn [chats messages]. rewrite Hc, lookup_insert_eq.
  done.
Qed.
End send.

Lemma on_sendMessage_undefined env s σ :
  on_sendMessage env s None σ = (Some tt, σ, [send_failed s]).
Proof. reflexivity. Qed.

Lemma on_sendMessage_no_session env s d σ :
  userSockets σ !! s = None →
  on_sendMessage env s (Some d) σ =
    (Some tt, σ, [AEmit s EvError (PStr "Not properly connected to chat")]).
Proof.
  intros H. unfold on_sendMessage. unfold_m. simpl_m. by rewrite H.
Qed.

(** ** The typing and disconnect handlers *)

Lemma on_typing_no_session s data σ :
  userSockets σ !! s = None → on_typing s data σ = (Some tt, σ, []).
Proof. intros H. unfold on_typing. unfold_m. simpl_m. by rewrite H. Qed.


(** A joined client that sends 'typing' without a payload: the handler
    throws, and nothing catches it. *)
Lemma on_typing_undefined s u c σ :
  userSockets σ !! s = Some (u, c) → u ≠ "" → c ≠ "" →
  on_typing s None σ = (None, σ, []).
Proof.
  intros H Hu Hc. unfold on_typing. unfold_m. simpl_m. rewrite H. simpl_m.
  by rewrite !bool_decide_eq_false_2 by done.
Qed.

Lemma on_disconnect_session s u c σ :
  userSockets σ !! s = Some (u, c) →
  on_disconnect s σ = (Some tt, unregister s u σ, disconnect_log s u c σ).
Proof. intros H. unfold on_disconnect. unfold_m. by rewrite H. Qed.

Lemma on_disconnect_no_session s σ :
  userSockets σ !! s = None → on_disconnect s σ = (Some tt, σ, []).
Proof. intros H. unfold on_disconnect. unfold_m. by rewrite H. Qed.

(** ** Dispatch *)

Lemma dispatch_not_connected s m σ :
  s ∉ sockets σ → connected s m σ = (Some tt, σ, []).
Proof.
  intros H. unfold connected. unfold_m. by rewrite bool_decide_eq_false_2.
Qed.

Lemma dispatch_connected s m σ :
  s ∈ sockets σ → connected s m σ = m σ.
Proof.
  intros H. unfold connected. unfold_m. rewrite bool_decide_eq_true_2 by done.
  by destruct (m σ) as [[[]?]?].
Qed.

(** ** What each handler leaves alone *)

Lemma on_sendMessage_frame env s data σ r σ' l :
  on_sendMessage env s data σ = (r, σ', l) →
  r = Some tt ∧ activeUsers σ' = activeUsers σ ∧ userSockets σ' = userSockets σ ∧
  sockets σ' = sockets σ ∧ rooms σ' = rooms σ ∧ store_grows σ σ'.
Proof.
  unfold on_sendMessage. unfold_m. simpl_m. intros H.
  repeat (case_match; simplify_eq); cbn; repeat split; try done.
  all: intros k Hk; cbn; try done.
  all: rewrite lookup_insert; destruct (decide _); [by eexists | done].
Qed.

Lemma post_chats_frame env body σ r σ' l :
  post_chats env body σ = (r, σ', l) →
  r = Some tt ∧ activeUsers σ' = activeUsers σ ∧ userSockets σ' = userSockets σ ∧
  sockets σ' = sockets σ ∧ rooms σ' = rooms σ ∧ store_grows σ σ' ∧
  Forall (λ a, match a with ARespond _ | ASetChat _ _ => True | _ => False end) l.
Proof.
  unfold post_chats. unfold_m. simpl_m. intros H.
  repeat (case_match; simplify_eq); cbn; repeat split; try done.
  all: try (intros k Hk; cbn;
            first [done | rewrite lookup_insert; destruct (decide _); [by eexists | done]]).
  all: repeat (apply Forall_cons_2; [done|]); apply Forall_nil_2.
Qed.

Lemma on_typing_frame s data σ r σ' l :
  on_typing s data σ = (r, σ', l) →
  σ' = σ ∧
  Forall (λ a, ∃ u c p, userSockets σ !! s = Some (u, c) ∧
     a = ABroadcast c (Some s) (members σ c ∖ {[s]}) EvUserTyping p) l.
Proof.
  unfold on_typing. unfold_m. simpl_m. intros H.
  destruct (userSockets σ !! s) as [[u c]|] eqn:Hs; simpl_m;
    repeat (case_match; simplify_eq); simplify_eq; split; try done.
  all: repeat (apply Forall_cons_2; [by eauto|]); apply Forall_nil_2.
Qed.


Lemma dispatch_disconnect env s σ :
  s ∈ sockets σ →
  dispatch env (Disconnect s) σ = on_disconnect s (sio_close s σ).
Proof.
  intros H. cbn [dispatch]. rewrite dispatch_connected by done.
  unfold bind, modify. by destruct (on_disconnect s (sio_close s σ)) as [[??]?].
Qed.

Lemma members_sio_close σ s room :
  members (sio_close s σ) room = members σ room ∖ {[s]}.
Proof.
  unfold sio_close.
  rewrite (members_eq (set_rooms (fmap (λ m, m ∖ {[s]})) σ)) by done.
  apply members_leave.
Qed.

Lemma members_sio_connect σ s room :
  members (sio_connect s σ) room =
  if decide (s = room) then {[s]} ∪ members σ room else members σ room.
Proof.
  unfold sio_connect. rewrite members_room_add.
  by rewrite (members_eq σ (set_sockets _ σ)).
Qed.

(** ** The invariant of registered sessions *)

Lemma dispatch_session_inv env e σ r σ' l :
  session_inv σ → dispatch env e σ = (r, σ', l) → session_inv σ'.
Proof.
  intros Hinv H. destruct e as [s|s data|s data|s data|s|body].
  - (* Connect *)
    cbn [dispatch] in H. unfold_m. destruct (bool_decide (s ∈ sockets σ)); simplify_eq; [done|].
    intros x u c Hx. destruct (Hinv x u c Hx) as (? & ? & ? & ? & ?).
    repeat split; try done.
    + cbn. set_solver.
    + rewrite members_sio_connect. destruct (decide _); set_solver.
  - (* Join *)
    cbn [dispatch] in H. destruct (decide (s ∈ sockets σ)) as [Hs|Hs];
      [rewrite dispatch_connected in H by done
      |rewrite dispatch_not_connected in H by done; by simplify_eq].
    destruct (on_join_cases env s data σ)
      as [(u & c & chat & _ & Hu & Hc & Hch & _ & Hj)|[msg Hj]];
      rewrite Hj in H; simplify_eq; [|done].
    intros x u' c' Hx. unfold joined, register in Hx |- *. cbn in Hx.
    rewrite (members_eq (set_rooms (room_add s c) σ)) by done.
    rewrite members_room_add. cbn [sockets chats set_userSockets set_activeUsers set_rooms].
    rewrite lookup_insert in Hx. destruct (decide (s = x)) as [->|Hne].
    + simplify_eq. rewrite decide_True by done. rewrite Hch.
      repeat split; try done. apply elem_of_union_l, elem_of_singleton_2. done.
    + destruct (Hinv x u' c' Hx) as (? & ? & ? & ? & ?).
      repeat split; try done. destruct (decide _); set_solver.
  - (* SendMessage *)
    cbn [dispatch] in H. destruct (decide (s ∈ sockets σ)) as [Hs|Hs];
      [rewrite dispatch_connected in H by done
      |rewrite dispatch_not_connected in H by done; by simplify_eq].
    apply on_sendMessage_frame in H as (_ & _ & Hus & Hso & Hro & Hst).
    intros x u c Hx. rewrite Hus in Hx. destruct (Hinv x u c Hx) as (? & ? & ? & ? & ?).
    rewrite Hso, (members_eq σ σ') by done. repeat split; try done. by apply Hst.
  - (* Typing *)
    cbn [dispatch] in H. destruct (decide (s ∈ sockets σ)) as [Hs|Hs];
      [rewrite dispatch_connected in H by done
      |rewrite dispatch_not_connected in H by done; by simplify_eq].
    by apply on_typing_frame in H as [-> _].
  - (* Disconnect *)
    destruct (decide (s ∈ sockets σ)) as [Hs|Hs]; cbn [dispatch] in H;
      [|rewrite dispatch_not_connected in H by done; by simplify_eq].
    change (dispatch env (Disconnect s) σ = (r, σ', l)) in H.
    rewrite dispatch_disconnect in H by done.
    destruct (userSockets σ !! s) as [[u c]|] eqn:Hsess.
    + rewrite (on_disconnect_session s u c) in H by done. simplify_eq.
      intros x u' c' Hx. cbn in Hx. rewrite lookup_delete in Hx.
      destruct (decide (s = x)) as [->|Hne]; [done|].
      destruct (Hinv x u' c' Hx) as (? & ? & ? & ? & ?).
      unfold unregister.
      rewrite (members_eq (sio_close s σ)) by done. rewrite members_sio_close.
      cbn. repeat split; try done; set_solver.
    + rewrite on_disconnect_no_session in H by done. simplify_eq.
      intros x u' c' Hx. cbn in Hx.
      destruct (Hinv x u' c' Hx) as (? & ? & ? & ? & ?).
      assert (x ≠ s) by congruence.
      rewrite members_sio_close. cbn. repeat split; try done; set_solver.
  - (* PostChats *)
    cbn [dispatch] in H.
    apply post_chats_frame in H as (_ & _ & Hus & Hso & Hro & Hst & _).
    intros x u c Hx. rewrite Hus in Hx. destruct (Hinv x u c Hx) as (? & ? & ? & ? & ?).
    rewrite Hso, (members_eq σ σ') by done. repeat split; try done. by apply Hst.
Qed.

Lemma run_cons env e tr σ :
  run ((env, e) :: tr) σ =
  match dispatch env e σ with
  | (Some _, σ1, l1) =>
      match run tr σ1 with
      | (r, σ2, l2) => (r, σ2, l1 ++ l2)
      end
  | (None, σ1, l1) => (None, σ1, l1)
  end.
Proof. cbn [run]. unfold bind. by destruct (dispatch env e σ) as [[[[]|] ?] ?]. Qed.

Lemma run_session_inv tr : ∀ σ r σ' l,
  session_inv σ → run tr σ = (r, σ', l) → session_inv σ'.
Proof.
  induction tr as [|[env e] tr IH]; intros σ r σ' l Hinv H.
  - cbn [run] in H. unfold ret in H. by simplify_eq.
  - rewrite run_cons in H.
    destruct (dispatch env e σ) as [[[[]|] σ1] l1] eqn:Hd.
    + destruct (run tr σ1) as [[r2 σ2] l2] eqn:Hr. simplify_eq.
      eapply IH; [|done]. by eapply dispatch_session_inv.
    + simplify_eq. by eapply dispatch_session_inv.
Qed.

Lemma reachable_session_inv σ : reachable σ → session_inv σ.
Proof.
  intros (cs & ms & tr & log & H). eapply run_session_inv; [|done].
  intros s u c Hs. cbn in Hs. by rewrite lookup_empty in Hs.
Qed.

Lemma reachable_st_ab : reachable st_ab.
Proof. exists ∅, ∅, tr_ab. eexists. vm_compute. reflexivity. Qed.


(** ** Joining *)

(** C4: a join that passes validation runs, in this order: the socket enters
    the room and the session is registered in both maps, then userOnline
    { userId } goes to the room without the joining socket, then the joining
    socket gets joined { chatId, userId }; afterwards the lookup of the
    socket gives the session { userId, chatId }. *)
Theorem join_success_order env s u c chat σ :
  u ≠ "" → c ≠ "" → fault env ≠ Some 0 →
  chats σ !! c = Some chat → u ∈ participants chat →
  ∃ σ',
    on_join env s (join_as u c) σ =
      (Some tt, σ',
       [ ARoomJoin s c; ASetActive u s; ASetSession s u c;
         ABroadcast c (Some s) (members σ c ∖ {[s]}) EvUserOnline (PUser u);
         AEmit s EvJoined (PJoined c u) ]) ∧
    lookup_session σ' s = Some (u, c) ∧
    activeUsers σ' !! u = Some s ∧
    s ∉ members σ c ∖ {[s]}.
Proof.
  intros Hu Hc Hf Hch Hp. exists (joined s u c σ). split_and!.
  - by eapply on_join_success.
  - unfold lookup_session, joined, register. cbn. apply lookup_insert_eq.
  - unfold joined, register. cbn. apply lookup_insert_eq.
  - rewrite elem_of_difference, elem_of_singleton. tauto.
Qed.

Lemma join_success_order_witness :
  ∃ σ',
    on_join env0 "A" (join_as "a" "a_b") st_open =
      (Some tt, σ',
       [ ARoomJoin "A" "a_b"; ASetActive "a" "A"; ASetSession "A" "a" "a_b";
         ABroadcast "a_b" (Some "A") (members st_open "a_b" ∖ {["A"]})
           EvUserOnline (PUser "a");
         AEmit "A" EvJoined (PJoined "a_b" "a") ]) ∧
    lookup_session σ' "A" = Some ("a", "a_b") ∧
    activeUsers σ' !! "a" = Some "A" ∧
    "A" ∉ members st_open "a_b" ∖ {["A"]}.
Proof.
  apply (join_success_order env0 "A" "a" "a_b"
           {| participants := ["a"; "b"]; createdAt := 0;
              lastMessage := None; lastMessageAt := None |} st_open).
  - discriminate.
  - discriminate.
  - discriminate.
  - vm_compute. reflexivity.
  - decide_it.
Defined.

(** C5, as the code has it: a join whose payload lacks userId or chatId (or
    has one empty) is refused with "UserId and chatId are required", the
    spec's ValidationError; with a chat the store does not hold, with "Chat
    not found", its NotFoundError; with a userId that is not among the
    chat's participants, with "Not authorized for this chat", its
    AuthorizationError.  A join that carries no payload at all, or whose
    store read throws, is refused with "Failed to join chat", which is none
    of these kinds.  Each time the joining socket alone gets one 'error'
    event and the state, hence the registry, is unchanged. *)
Theorem join_rejections env s d σ :
  (falsy (jd_userId d) || falsy (jd_chatId d) = true →
     on_join env s (Some d) σ = refused s "UserId and chatId are required" σ ∧
     spec_error_kind "UserId and chatId are required" = Some ValidationError) ∧
  (falsy (jd_userId d) || falsy (jd_chatId d) = false → fault env ≠ Some 0 →
     chats σ !! str (jd_chatId d) = None →
     on_join env s (Some d) σ = refused s "Chat not found" σ ∧
     spec_error_kind "Chat not found" = Some NotFoundError) ∧
  (∀ chat,
     falsy (jd_userId d) || falsy (jd_chatId d) = false → fault env ≠ Some 0 →
     chats σ !! str (jd_chatId d) = Some chat →
     str (jd_userId d) ∉ participants chat →
     on_join env s (Some d) σ = refused s "Not authorized for this chat" σ ∧
     spec_error_kind "Not authorized for this chat" = Some AuthorizationError) ∧
  (falsy (jd_userId d) || falsy (jd_chatId d) = false → fault env = Some 0 →
     on_join env s (Some d) σ = refused s "Failed to join chat" σ) ∧
  on_join env s None σ = refused s "Failed to join chat" σ ∧
  spec_error_kind "Failed to join chat" = None.
Proof.
  split_and!.
  - intros H. split; [by apply on_join_missing | done].
  - intros H Hf Hch. split; [|done]. destruct d as [ou oc].
    cbn [jd_userId jd_chatId] in *. apply orb_false_iff in H as [Hu Hc].
    apply falsy_false in Hu as (u & -> & Hu). apply falsy_false in Hc as (c & -> & Hc).
    by apply on_join_not_found.
  - intros chat H Hf Hch Hp. split; [|done]. destruct d as [ou oc].
    cbn [jd_userId jd_chatId] in *. apply orb_false_iff in H as [Hu Hc].
    apply falsy_false in Hu as (u & -> & Hu). apply falsy_false in Hc as (c & -> & Hc).
    by eapply on_join_not_authorized.
  - intros H Hf. destruct d as [ou oc].
    cbn [jd_userId jd_chatId] in *. apply orb_false_iff in H as [Hu Hc].
    apply falsy_false in Hu as (u & -> & Hu). apply falsy_false in Hc as (c & -> & Hc).
    by apply on_join_store_fault.
  - apply on_join_undefined.
  - done.
Qed.

Lemma join_rejections_witness :
  on_join env0 "A" (Some {| jd_userId := None; jd_chatId := Some "a_b" |}) st_open
    = refused "A" "UserId and chatId are required" st_open ∧
  on_join env0 "A" (join_as "a" "x_y") st_open = refused "A" "Chat not found" st_open ∧
  on_join env0 "A" (join_as "c" "a_b") st_open
    = refused "A" "Not authorized for this chat" st_open ∧
  on_join (env_fail 0) "A" (join_as "a" "a_b") st_open
    = refused "A" "Failed to join chat" st_open.
Proof.
  split_and!.
  - destruct (join_rejections env0 "A"
                {| jd_userId := None; jd_chatId := Some "a_b" |} st_open)
      as (H & _).
    apply H. reflexivity.
  - destruct (join_rejections env0 "A"
                {| jd_userId := Some "a"; jd_chatId := Some "x_y" |} st_open)
      as (_ & H & _).
    apply H.
    + reflexivity.
    + discriminate.
    + vm_compute. reflexivity.
  - destruct (join_rejections env0 "A"
                {| jd_userId := Some "c"; jd_chatId := Some "a_b" |} st_open)
      as (_ & _ & H & _).
    apply (H {| participants := ["a"; "b"]; createdAt := 0;
                lastMessage := None; lastMessageAt := None |}).
    + reflexivity.
    + discriminate.
    + vm_compute. reflexivity.
    + decide_it.
  - destruct (join_rejections (env_fail 0) "A"
                {| jd_userId := Some "a"; jd_chatId := Some "a_b" |} st_open)
      as (_ & _ & _ & H & _).
    apply H; reflexivity.
Defined.

(** C5 as stated fails: a join that carries no payload has neither userId
    nor chatId, and is answered with "Failed to join chat", not with the
    message of the ValidationError. *)
Lemma join_without_payload_not_validation : ¬ missing_field_is_validation_error.
Proof.
  intros H. destruct (H env0 "A" None st_open I) as (msg & Hmsg & Hkind).
  rewrite on_join_undefined in Hmsg. unfold refused in Hmsg.
  injection Hmsg as <-. vm_compute in Hkind. discriminate.
Qed.

(** ** Sending a message *)

Lemma trim_start_all_white t : all_white t = true → trim_start t = "".
Proof.
  induction t as [|a t IH]; [done|]. cbn. intros [Ha Ht]%andb_true_iff.
  rewrite Ha. by apply IH.
Qed.

Lemma trim_all_white t : all_white t = true → trim t = "".
Proof. intros H. unfold trim. by rewrite trim_start_all_white. Qed.

(** C7: a sendMessage from a joined socket whose message is missing, empty
    or white space only is refused with "Message cannot be empty", a
    ValidationError, sent to the sender alone; the state is unchanged, so no
    record is stored, the chat summary is as before, and nothing is
    broadcast. *)
Theorem empty_message_rejected env s u c m ts σ :
  reachable σ → userSockets σ !! s = Some (u, c) →
  (m = None ∨ ∃ t, m = Some t ∧ all_white t = true) →
  on_sendMessage env s (Some {| sd_message := m; sd_timestamp := ts |}) σ =
    refused s "Message cannot be empty" σ ∧
  spec_error_kind "Message cannot be empty" = Some ValidationError.
Proof.
  intros Hr Hs Hm. split; [|done].
  destruct (reachable_session_inv σ Hr s u c Hs) as (Hu & Hc & _).
  eapply on_sendMessage_empty; [done..|]. cbn [sd_message].
  destruct Hm as [->|(t & -> & Ht)]; [done|]. cbn [falsy str from_option id].
  rewrite (trim_all_white t Ht). rewrite (bool_decide_eq_true_2 ("" = "")) by done.
  apply orb_true_r.
Qed.

Lemma empty_message_rejected_witness :
  on_sendMessage env0 "A"
    (Some {| sd_message := Some "  "; sd_timestamp := None |}) st_ab =
    refused "A" "Message cannot be empty" st_ab ∧
  spec_error_kind "Message cannot be empty" = Some ValidationError.
Proof.
  apply (empty_message_rejected env0 "A" "a" "a_b" (Some "  ") None st_ab).
  - apply reachable_st_ab.
  - vm_compute. reflexivity.
  - right. exists "  ". split; reflexivity.
Defined.



(** ** Disconnecting *)



(** C10: a user joins on socket A, then on socket B (the last join wins);
    A then closes while B stays connected.  The disconnect handler deletes
    the user's entry of activeUsers, which pointed to B, and broadcasts
    userOffline { userId } to A's former chat; B keeps its entry in
    userSockets. *)
Theorem stale_disconnect_evicts env1 env2 env3 A B u c c' chat chat' σ :
  A ≠ B → A ∈ sockets σ → B ∈ sockets σ →
  u ≠ "" → c ≠ "" → c' ≠ "" → fault env1 ≠ Some 0 → fault env2 ≠ Some 0 →
  chats σ !! c = Some chat → u ∈ participants chat →
  chats σ !! c' = Some chat' → u ∈ participants chat' →
  ∃ σ2 l2 σ3,
    run [(env1, Join A (join_as u c)); (env2, Join B (join_as u c'))] σ
      = (Some tt, σ2, l2) ∧
    activeUsers σ2 !! u = Some B ∧
    userSockets σ2 !! A = Some (u, c) ∧
    dispatch env3 (Disconnect A) σ2 =
      (Some tt, σ3,
       [ ADelActive u; ADelSession A;
         ABroadcast c (Some A) (members σ2 c ∖ {[A]}) EvUserOffline (PUser u) ]) ∧
    activeUsers σ3 !! u = None ∧
    userSockets σ3 !! B = Some (u, c') ∧
    B ∈ sockets σ3.
Proof.
  intros Hne HA HB Hu Hc Hc' Hf1 Hf2 Hch Hp Hch' Hp'.
  set (σ1 := joined A u c σ). set (σ2 := joined B u c' σ1).
  assert (HsA : userSockets σ2 !! A = Some (u, c)).
  { subst σ2 σ1. unfold joined, register. cbn.
    rewrite lookup_insert_ne by done. apply lookup_insert_eq. }
  exists σ2, (join_log A u c σ ++ join_log B u c' σ1 ++ []),
    (unregister A u (sio_close A σ2)).
  split_and!.
  - rewrite run_cons. cbn [dispatch]. rewrite dispatch_connected by done.
    unfold join_as. rewrite (on_join_success env1 A u c chat σ) by done.
    fold σ1. rewrite run_cons. cbn [dispatch]. rewrite dispatch_connected by done.
    by rewrite (on_join_success env2 B u c' chat' σ1) by done.
  - subst σ2. unfold joined, register. cbn. apply lookup_insert_eq.
  - done.
  - rewrite dispatch_disconnect by done.
    rewrite (on_disconnect_session A u c) by done.
    unfold disconnect_log. rewrite members_sio_close.
    replace (members σ2 c ∖ {[A]} ∖ {[A]}) with (members σ2 c ∖ {[A]}); [done|].
    apply set_eq. intros x. rewrite !elem_of_difference. tauto.
  - cbn. apply lookup_delete_eq.
  - cbn. rewrite lookup_delete_ne by done. apply lookup_insert_eq.
  - cbn. rewrite elem_of_difference, elem_of_singleton. split; [done|congruence].
Qed.

Lemma stale_disconnect_evicts_witness :
  ∃ σ2 l2 σ3,
    run [(env0, Join "A" (join_as "a" "a_b")); (env0, Join "B" (join_as "a" "a_c"))]
      st_open = (Some tt, σ2, l2) ∧
    activeUsers σ2 !! "a" = Some "B" ∧
    userSockets σ2 !! "A" = Some ("a", "a_b") ∧
    dispatch env0 (Disconnect "A") σ2 =
      (Some tt, σ3,
       [ ADelActive "a"; ADelSession "A";
         ABroadcast "a_b" (Some "A") (members σ2 "a_b" ∖ {["A"]})
           EvUserOffline (PUser "a") ]) ∧
    activeUsers σ3 !! "a" = None ∧
    userSockets σ3 !! "B" = Some ("a", "a_c") ∧
    "B" ∈ sockets σ3.
Proof.
  apply (stale_disconnect_evicts env0 env0 env0 "A" "B" "a" "a_b" "a_c"
           {| participants := ["a"; "b"]; createdAt := 0;
              lastMessage := None; lastMessageAt := None |}
           {| participants := ["a"; "c"]; createdAt := 0;
              lastMessage := None; lastMessageAt := None |} st_open).
  - discriminate.
  - decide_it.
  - decide_it.
  - discriminate.
  - discriminate.
  - discriminate.
  - discriminate.
  - discriminate.
  - vm_compute. reflexivity.
  - decide_it.
  - vm_compute. reflexivity.
  - decide_it.
Defined.

(** ** Creating a chat *)

Lemma sort_pair a b : sort [a; b] = if js_lt a b then [a; b] else [b; a].
Proof. reflexivity. Qed.


Lemma post_chats_pair env a b σ :
  fault env = None →
  post_chats env (Some [a; b]) σ =
    match chats σ !! chatId_of [a; b] with
    | Some _ => (Some tt, σ, [ARespond (Ok200 (chatId_of [a; b]) (sort [a; b]))])
    | None =>
        let d := {| participants := sort [a; b]; createdAt := clock env 1;
                    lastMessage := None; lastMessageAt := None |} in
        (Some tt, set_chats <[chatId_of [a; b] := d]> σ,
         [ASetChat (chatId_of [a; b]) d;
          ARespond (Ok200 (chatId_of [a; b]) (sort [a; b]))])
    end.
Proof.
  intros Hf. unfold post_chats. unfold_m. cbn [length negb].
  rewrite (bool_decide_eq_true_2 (2 = 2)) by done. cbn [negb].
  rewrite !throws_false by (rewrite Hf; done). fold (chatId_of [a; b]).
  by destruct (chats σ !! chatId_of [a; b]).
Qed.



Example chatId_of_ba : chatId_of ["b"; "a"] = "a_b".
Proof. reflexivity. Qed.

(** ** Reporting failures *)

Lemma on_join_reports env s data σ :
  succeeded (on_join env s data σ).2 = false →
  reports_error bare s (on_join env s data σ).
Proof.
  destruct (on_join_cases env s data σ)
    as [(u & c & chat & _ & _ & _ & _ & _ & ->)|[msg ->]]; [done|].
  intros _. split; [done|]. exists (PStr msg). split; [done|]. by exists msg.
Qed.

Lemma on_sendMessage_reports env s data σ :
  succeeded (on_sendMessage env s data σ).2 = false →
  reports_error bare s (on_sendMessage env s data σ).
Proof.
  unfold on_sendMessage. unfold_m. simpl_m.
  repeat (case_match; simplify_eq); cbn; try done.
  all: intros _; (split; [done|]); eexists; (split; [done|]); by eexists.
Qed.

(** C9, as the code has it: a join or sendMessage that fails returns
    normally (nothing is thrown out of the handler) and sends exactly one
    'error' event, to the originating socket, whose payload is a bare
    message string (no kind field); a typing event or a disconnect of a
    socket without a session does nothing at all. *)
Theorem failures_reported env s σ :
  (∀ data, succeeded (on_join env s data σ).2 = false →
     reports_error bare s (on_join env s data σ)) ∧
  (∀ data, succeeded (on_sendMessage env s data σ).2 = false →
     reports_error bare s (on_sendMessage env s data σ)) ∧
  (∀ data, userSockets σ !! s = None → on_typing s data σ = (Some tt, σ, [])) ∧
  (userSockets σ !! s = None → on_disconnect s σ = (Some tt, σ, [])).
Proof.
  split_and!.
  - intros data. apply on_join_reports.
  - intros data. apply on_sendMessage_reports.
  - intros data. apply on_typing_no_session.
  - apply on_disconnect_no_session.
Qed.

Lemma failures_reported_witness :
  reports_error bare "A" (on_join env0 "A" (join_as "c" "a_b") st_open) ∧
  reports_error bare "A" (on_sendMessage env0 "A" (say "hi") st_open) ∧
  on_typing "A" None st_open = (Some tt, st_open, []) ∧
  on_disconnect "A" st_open = (Some tt, st_open, []).
Proof.
  destruct (failures_reported env0 "A" st_open) as (Hj & Hs & Ht & Hd).
  split_and!.
  - apply Hj. vm_compute. reflexivity.
  - apply Hs. vm_compute. reflexivity.
  - apply Ht. vm_compute. reflexivity.
  - apply Hd. vm_compute. reflexivity.
Defined.

(** C9 as stated asks for a tagged payload, a kind next to the message; the
    join handler answers a request without userId with the bare string
    "UserId and chatId are required". *)
Lemma failures_not_tagged :
  ¬ (∀ env s data σ,
       succeeded (on_join env s data σ).2 = false →
       reports_error tagged s (on_join env s data σ)).
Proof.
  intros H.
  destruct (H env0 "A" (Some {| jd_userId := None; jd_chatId := Some "a_b" |})
              st_open eq_refl) as (_ & p & Hp & Hk & _).
  cbn in Hp. injection Hp as <-. cbn in Hk. by apply elem_of_nil in Hk.
Qed.

(** ** The two maps *)

(** One event either leaves both maps alone, or sets an entry in each, or
    deletes an entry from each. *)
Lemma dispatch_registry env e σ r σ' l :
  dispatch env e σ = (r, σ', l) →
  (activeUsers σ' = activeUsers σ ∧ userSockets σ' = userSockets σ) ∨
  (∃ s u c, ASetSession s u c ∈ l ∧
     activeUsers σ' = <[u := s]> (activeUsers σ) ∧
     userSockets σ' = <[s := (u, c)]> (userSockets σ)) ∨
  (∃ s u c, userSockets σ !! s = Some (u, c) ∧
     activeUsers σ' = delete u (activeUsers σ) ∧
     userSockets σ' = delete s (userSockets σ)).
Proof.
  intros H. destruct e as [s|s data|s data|s data|s|body]; cbn [dispatch] in H.
  - left. unfold_m. by destruct (bool_decide (s ∈ sockets σ)); simplify_eq.
  - destruct (decide (s ∈ sockets σ)) as [Hs|Hs];
      [rewrite dispatch_connected in H by done
      |rewrite dispatch_not_connected in H by done; left; by simplify_eq].
    destruct (on_join_cases env s data σ)
      as [(u & c & chat & _ & _ & _ & _ & _ & Hj)|[msg Hj]];
      rewrite Hj in H; simplify_eq; [|by left].
    right; left. exists s, u, c. split; [|done].
    unfold join_log. rewrite !elem_of_cons. tauto.
  - destruct (decide (s ∈ sockets σ)) as [Hs|Hs];
      [rewrite dispatch_connected in H by done
      |rewrite dispatch_not_connected in H by done; left; by simplify_eq].
    apply on_sendMessage_frame in H as (_ & ? & ? & _). by left.
  - destruct (decide (s ∈ sockets σ)) as [Hs|Hs];
      [rewrite dispatch_connected in H by done
      |rewrite dispatch_not_connected in H by done; left; by simplify_eq].
    apply on_typing_frame in H as [-> _]. by left.
  - destruct (decide (s ∈ sockets σ)) as [Hs|Hs];
      [|rewrite dispatch_not_connected in H by done; left; by simplify_eq].
    change (dispatch env (Disconnect s) σ = (r, σ', l)) in H.
    rewrite dispatch_disconnect in H by done.
    destruct (userSockets σ !! s) as [[u c]|] eqn:Hsess.
    + rewrite (on_disconnect_session s u c) in H by done. simplify_eq.
      right; right. by exists s, u, c.
    + rewrite on_disconnect_no_session in H by done. simplify_eq. by left.
  - apply post_chats_frame in H as (_ & ? & ? & _). by left.
Qed.

Lemma compatible_spec σ s u :
  compatible σ s u = true →
  (∀ s', activeUsers σ !! u = Some s' → s' = s) ∧
  (∀ u' c', userSockets σ !! s = Some (u', c') → u' = u).
Proof.
  unfold compatible. intros [H1 H2]%andb_true_iff.
  apply bool_decide_eq_true in H1, H2. split.
  - intros s' Hs'. destruct H1 as [H1|H1]; congruence.
  - intros u' c' Hx. rewrite Hx in H2. cbn in H2. destruct H2 as [H2|H2]; congruence.
Qed.

Lemma dispatch_lockstep env e σ r σ' l :
  lockstep σ → forallb (compatible_action σ) l = true →
  dispatch env e σ = (r, σ', l) → lockstep σ'.
Proof.
  intros Hl Hc H.
  destruct (dispatch_registry _ _ _ _ _ _ H)
    as [[Ha Hu]|[(s & u & c & Hin & Ha & Hu)|(s & u & c & Hs & Ha & Hu)]];
    intros u1 s1; rewrite Ha, Hu.
  - apply Hl.
  - assert (Hcomp : compatible σ s u = true).
    { rewrite forallb_forall in Hc. apply (Hc (ASetSession s u c)).
      by apply list_elem_of_In. }
    apply compatible_spec in Hcomp as [Hc1 Hc2].
    rewrite !lookup_insert.
    destruct (decide (u = u1)) as [<-|Hne], (decide (s = s1)) as [<-|Hne'].
    + split; [by eexists|done].
    + split; [congruence|]. intros [c' Hx]. exfalso. apply Hne'. symmetry.
      apply Hc1. apply Hl. by exists c'.
    + split; [|intros [c' ?]; congruence].
      intros Hx. apply Hl in Hx as [c' Hx]. by apply Hc2 in Hx.
    + apply Hl.
  - assert (Hus : activeUsers σ !! u = Some s) by (apply Hl; by exists c).
    rewrite !lookup_delete.
    destruct (decide (u = u1)) as [<-|Hne], (decide (s = s1)) as [<-|Hne'].
    + split; [done|by intros [? ?]].
    + split; [done|]. intros [c' Hx]. exfalso. apply Hne'.
      assert (activeUsers σ !! u = Some s1) by (apply Hl; by exists c').
      congruence.
    + split; [|by intros [? ?]]. intros Hx. apply Hl in Hx as [c' Hx]. congruence.
    + apply Hl.
Qed.

Lemma run_lockstep tr : ∀ σ r σ' l,
  lockstep σ → disciplined tr σ = true → run tr σ = (r, σ', l) → lockstep σ'.
Proof.
  induction tr as [|[env e] tr IH]; intros σ r σ' l Hl Hd H.
  - cbn [run] in H. unfold ret in H. by simplify_eq.
  - rewrite run_cons in H. cbn [disciplined] in Hd.
    destruct (dispatch env e σ) as [[r1 σ1] l1] eqn:Hdis.
    apply andb_true_iff in Hd as [Hd1 Hd2].
    pose proof (dispatch_lockstep _ _ _ _ _ _ Hl Hd1 Hdis) as Hl1.
    destruct r1 as [[]|]; [|by simplify_eq].
    destruct (run tr σ1) as [[r2 σ2] l2] eqn:Hr. simplify_eq. by eapply IH.
Qed.

(** C1, as the code has it: every event either leaves both maps alone, or
    sets the user's entry and the socket's entry together (a join), or
    deletes the entry of a session's user and the socket's entry together
    (a disconnect); and the two maps agree in every state reached by a run
    in which no join moves a user away from another socket or changes the
    user of a socket. *)
Theorem registry_lockstep :
  (∀ env e σ r σ' l, dispatch env e σ = (r, σ', l) →
     (activeUsers σ' = activeUsers σ ∧ userSockets σ' = userSockets σ) ∨
     (∃ s u c, activeUsers σ' = <[u := s]> (activeUsers σ) ∧
               userSockets σ' = <[s := (u, c)]> (userSockets σ)) ∨
     (∃ s u c, userSockets σ !! s = Some (u, c) ∧
               activeUsers σ' = delete u (activeUsers σ) ∧
               userSockets σ' = delete s (userSockets σ))) ∧
  (∀ cs ms tr r σ l,
     disciplined tr (initial cs ms) = true →
     run tr (initial cs ms) = (r, σ, l) → lockstep σ).
Proof.
  split.
  - intros env e σ r σ' l H.
    destruct (dispatch_registry _ _ _ _ _ _ H)
      as [?|[(s & u & c & _ & ? & ?)|?]]; [by left| |by right; right].
    right; left. by exists s, u, c.
  - intros cs ms tr r σ l Hd H. eapply run_lockstep; [|done..].
    intros u s. cbn. rewrite !lookup_empty. split; [done|by intros [? ?]].
Qed.

Lemma registry_lockstep_witness :
  (∃ s u c, activeUsers st_a = <[u := s]> (activeUsers st_open) ∧
            userSockets st_a = <[s := (u, c)]> (userSockets st_open)) ∧
  lockstep st_ab.
Proof.
  destruct registry_lockstep as [Hstep Hrun]. split.
  - destruct (Hstep env0 (Join "A" (join_as "a" "a_b")) st_open (Some tt) st_a
                (dispatch env0 (Join "A" (join_as "a" "a_b")) st_open).2)
      as [[Ha _]|[H|(s & u & c & _ & Ha & _)]].
    + vm_compute. reflexivity.
    + exfalso. vm_compute in Ha. discriminate.
    + exact H.
    + exfalso. vm_compute in Ha. discriminate.
  - apply (Hrun ∅ ∅ tr_ab (Some tt) st_ab (run tr_ab (initial ∅ ∅)).2).
    + vm_compute. reflexivity.
    + vm_compute. reflexivity.
Defined.

(** C1 as stated fails: after socket A joined as a and then as b,
    activeUsers binds a to A while the session of A is b's. *)
Lemma lockstep_broken : ¬ (∀ σ, reachable σ → lockstep σ).
Proof.
  intros H.
  assert (Hr : reachable st_swap).
  { exists ∅, ∅, tr_swap. eexists. vm_compute. reflexivity. }
  destruct (H st_swap Hr "a" "A") as [Hforth _].
  destruct Hforth as [c Hc]; [vm_compute; reflexivity|].
  vm_compute in Hc. discriminate.
Qed.

(** The other direction fails as well: after the user joined on A and then
    on B and A closed, B is bound to a session of the user, who has no
    entry in activeUsers. *)
Example stale_entry_after_disconnect :
  reachable st_stale ∧
  userSockets st_stale !! "B" = Some ("a", "a_c") ∧
  activeUsers st_stale !! "a" = None.
Proof.
  split_and!; [|vm_compute; reflexivity..].
  exists ∅, ∅, tr_stale. eexists. vm_compute. reflexivity.
Qed.

(** ** Who receives a broadcast *)

Lemma on_sendMessage_within env s data σ r σ' l :
  on_sendMessage env s data σ = (r, σ', l) →
  Forall (within_rooms σ) l ∧ ∀ x u c, ASetSession x u c ∉ l.
Proof.
  unfold on_sendMessage. unfold_m. simpl_m. intros H.
  repeat (case_match; simplify_eq);
    (split;
     [ repeat (apply Forall_cons_2; [first [done | by cbn]|]); apply Forall_nil_2
     | intros x0 u0 c0 Hin;
       repeat (apply elem_of_cons in Hin as [?|Hin]; [done|]);
       by apply elem_of_nil in Hin ]).
Qed.

Lemma dispatch_within env e σ r σ' l :
  dispatch env e σ = (r, σ', l) → Forall (within_rooms σ) l.
Proof.
  intros H. destruct e as [s|s data|s data|s data|s|body]; cbn [dispatch] in H.
  - unfold_m. destruct (bool_decide (s ∈ sockets σ)); simplify_eq; apply Forall_nil_2.
  - destruct (decide (s ∈ sockets σ)) as [Hs|Hs];
      [rewrite dispatch_connected in H by done
      |rewrite dispatch_not_connected in H by done; simplify_eq; apply Forall_nil_2].
    destruct (on_join_cases env s data σ)
      as [(u & c & chat & _ & _ & _ & _ & _ & Hj)|[msg Hj]];
      rewrite Hj in H; simplify_eq.
    + unfold join_log. repeat (apply Forall_cons_2; [try done|]); [|apply Forall_nil_2].
      cbn. intros x. rewrite elem_of_difference. tauto.
    + by repeat (apply Forall_cons_2; [done|]).
  - destruct (decide (s ∈ sockets σ)) as [Hs|Hs];
      [rewrite dispatch_connected in H by done
      |rewrite dispatch_not_connected in H by done; simplify_eq; apply Forall_nil_2].
    by apply on_sendMessage_within in H as [? _].
  - destruct (decide (s ∈ sockets σ)) as [Hs|Hs];
      [rewrite dispatch_connected in H by done
      |rewrite dispatch_not_connected in H by done; simplify_eq; apply Forall_nil_2].
    apply on_typing_frame in H as [_ H]. eapply Forall_impl; [done|].
    intros a (u & c & p & _ & ->). cbn. intros x. rewrite elem_of_difference. tauto.
  - destruct (decide (s ∈ sockets σ)) as [Hs|Hs];
      [|rewrite dispatch_not_connected in H by done; simplify_eq; apply Forall_nil_2].
    change (dispatch env (Disconnect s) σ = (r, σ', l)) in H.
    rewrite dispatch_disconnect in H by done.
    destruct (userSockets σ !! s) as [[u c]|] eqn:Hsess.
    + rewrite (on_disconnect_session s u c) in H by done. simplify_eq.
      unfold disconnect_log. repeat (apply Forall_cons_2; [try done|]); [|apply Forall_nil_2].
      cbn. rewrite members_sio_close. intros x. rewrite !elem_of_difference. tauto.
    + rewrite on_disconnect_no_session in H by done. simplify_eq. apply Forall_nil_2.
  - apply post_chats_frame in H as (_ & _ & _ & _ & _ & _ & H).
    eapply Forall_impl; [done|]. by intros [].
Qed.

Lemma dispatch_members env e σ r σ' l x room :
  dispatch env e σ = (r, σ', l) → x ∈ members σ' room →
  x ∈ members σ room ∨ x = room ∨ ∃ u, ASetSession x u room ∈ l.
Proof.
  intros H Hx. destruct e as [s|s data|s data|s data|s|body]; cbn [dispatch] in H.
  - unfold_m. destruct (bool_decide (s ∈ sockets σ)); simplify_eq; [by left|].
    rewrite members_sio_connect in Hx. destruct (decide (s = room)) as [->|]; [|by left].
    apply elem_of_union in Hx as [->%elem_of_singleton|?]; [right; by left|by left].
  - destruct (decide (s ∈ sockets σ)) as [Hs|Hs];
      [rewrite dispatch_connected in H by done
      |rewrite dispatch_not_connected in H by done; simplify_eq; by left].
    destruct (on_join_cases env s data σ)
      as [(u & c & chat & _ & _ & _ & _ & _ & Hj)|[msg Hj]];
      rewrite Hj in H; simplify_eq; [|by left].
    unfold joined, register in Hx.
    rewrite (members_eq (set_rooms (room_add s c) σ)) in Hx by done.
    rewrite members_room_add in Hx. destruct (decide (c = room)) as [->|]; [|by left].
    apply elem_of_union in Hx as [->%elem_of_singleton|?]; [|by left].
    right; right. exists u. unfold join_log. rewrite !elem_of_cons. tauto.
  - destruct (decide (s ∈ sockets σ)) as [Hs|Hs];
      [rewrite dispatch_connected in H by done
      |rewrite dispatch_not_connected in H by done; simplify_eq; by left].
    apply on_sendMessage_frame in H as (_ & _ & _ & _ & Hro & _).
    left. by rewrite (members_eq σ σ') in Hx.
  - destruct (decide (s ∈ sockets σ)) as [Hs|Hs];
      [rewrite dispatch_connected in H by done
      |rewrite dispatch_not_connected in H by done; simplify_eq; by left].
    apply on_typing_frame in H as [-> _]. by left.
  - destruct (decide (s ∈ sockets σ)) as [Hs|Hs];
      [|rewrite dispatch_not_connected in H by done; simplify_eq; by left].
    change (dispatch env (Disconnect s) σ = (r, σ', l)) in H.
    rewrite dispatch_disconnect in H by done. left.
    destruct (userSockets σ !! s) as [[u c]|] eqn:Hsess.
    + rewrite (on_disconnect_session s u c) in H by done. simplify_eq.
      unfold unregister in Hx. rewrite (members_eq (sio_close s σ)) in Hx by done.
      rewrite members_sio_close in Hx. by apply elem_of_difference in Hx as [? _].
    + rewrite on_disconnect_no_session in H by done. simplify_eq.
      rewrite members_sio_close in Hx. by apply elem_of_difference in Hx as [? _].
  - apply post_chats_frame in H as (_ & _ & _ & _ & Hro & _).
    left. by rewrite (members_eq σ σ') in Hx.
Qed.

Lemma run_broadcast tr : ∀ σ (J : string → string → Prop) r σ' log,
  (∀ x room, x ∈ members σ room → x = room ∨ J x room) →
  run tr σ = (r, σ', log) →
  ∀ l1 room ex to ev p l2 x,
    log = l1 ++ ABroadcast room ex to ev p :: l2 → x ∈ to →
    x = room ∨ J x room ∨ ∃ u, ASetSession x u room ∈ l1.
Proof.
  induction tr as [|[env e] tr IH]; intros σ J r σ' log HJ H l1 room ex to ev p l2 x Hlog Hx.
  - cbn [run] in H. unfold ret in H. injection H as <- <- <-. by destruct l1.
  - rewrite run_cons in H.
    destruct (dispatch env e σ) as [[r1 σ1] la] eqn:Hd.
    pose proof (dispatch_within _ _ _ _ _ _ Hd) as Hwithin.
    assert (Hhere : ∀ k1 k2, la = k1 ++ ABroadcast room ex to ev p :: k2 →
                      x = room ∨ J x room).
    { intros k1 k2 ->. apply Forall_app in Hwithin as [_ Hw].
      apply Forall_cons in Hw as [Hw _]. cbn in Hw. apply HJ, Hw, Hx. }
    destruct r1 as [[]|].
    + destruct (run tr σ1) as [[r2 σ2] lb] eqn:Hr. injection H as <- <- <-.
      apply app_eq_inv in Hlog as [(k & Hla & Hk)|(k & -> & Hlb)].
      * destruct k as [|a k]; cbn in Hk; simplify_eq.
        -- rewrite app_nil_r in Hd.
           destruct (IH σ1 (λ y ro, J y ro ∨ ∃ u, ASetSession y u ro ∈ l1)
                        _ _ _ ltac:(intros y ro Hy;
                          destruct (dispatch_members _ _ _ _ _ _ y ro Hd Hy)
                            as [Hm|[?|?]]; [destruct (HJ y ro Hm)|..]; tauto)
                        Hr [] room ex to ev p l2 x eq_refl Hx)
             as [?|[[?|?]|[u Hu]]]; try tauto.
           by apply elem_of_nil in Hu.
        -- destruct (Hhere l1 k eq_refl); tauto.
      * destruct (IH σ1 (λ y ro, J y ro ∨ ∃ u, ASetSession y u ro ∈ la)
                     _ _ _ ltac:(intros y ro Hy;
                       destruct (dispatch_members _ _ _ _ _ _ y ro Hd Hy)
                         as [Hm|[?|?]]; [destruct (HJ y ro Hm)|..]; tauto)
                     Hr k room ex to ev p l2 x Hlb Hx)
          as [?|[[?|[u Hu]]|[u Hu]]]; try tauto.
        -- right; right. exists u. apply elem_of_app. by left.
        -- right; right. exists u. apply elem_of_app. by right.
    + injection H as <- <- <-. destruct (Hhere l1 l2 Hlog); tauto.
Qed.

(** C2, as the code has it: in every run, a socket that is sent a broadcast
    (newMessage, userTyping, userOnline or userOffline) made for a room has
    earlier in the run registered a session for that chat on this socket, or
    the room is the socket's own id.  The recipients are the members of
    socket.io's room, which a join extends and only a disconnect clears;
    the session the socket has when the broadcast is made may be for
    another chat. *)
Theorem broadcast_needs_join cs ms tr r σ log l1 room ex to ev p l2 x :
  run tr (initial cs ms) = (r, σ, log) →
  log = l1 ++ ABroadcast room ex to ev p :: l2 → x ∈ to →
  x = room ∨ ∃ u, ASetSession x u room ∈ l1.
Proof.
  intros H Hlog Hx.
  assert (Hinit : ∀ y ro, y ∈ members (initial cs ms) ro → y = ro ∨ False).
  { intros y ro Hy. unfold members in Hy. cbn in Hy. rewrite lookup_empty in Hy.
    by apply elem_of_empty in Hy. }
  destruct (run_broadcast tr (initial cs ms) (λ _ _, False) r σ log Hinit H
              l1 room ex to ev p l2 x Hlog Hx) as [?|[[]|?]]; [by left|by right].
Qed.

Lemma broadcast_needs_join_witness :
  "A" = "a_b" ∨ ∃ u, ASetSession "A" u "a_b" ∈ take 12 log_ab.
Proof.
  apply (broadcast_needs_join ∅ ∅ tr_ab (Some tt) st_ab log_ab (take 12 log_ab)
           "a_b" (Some "B") {["A"]} EvUserOnline (PUser "b") (drop 13 log_ab) "A").
  - vm_compute. reflexivity.
  - vm_compute. reflexivity.
  - decide_it.
Defined.

(** C2 as stated fails: A joined "a_b" and then "a_c" on the same socket,
    so its session is for "a_c" while it is still in room "a_b"; when B
    joins "a_b", A is sent userOnline for that chat. *)
Lemma broadcast_outside_session : ¬ broadcasts_follow_registry.
Proof.
  intros H.
  assert (Hr : reachable st_rejoin).
  { exists ∅, ∅, tr_rejoin. eexists. vm_compute. reflexivity. }
  destruct (dispatch env0 (Join "B" (join_as "b" "a_b")) st_rejoin)
    as [[r σ'] l] eqn:Hd.
  specialize (H st_rejoin env0 _ r σ' l Hr Hd
                "a_b" (Some "B") {["A"]} EvUserOnline (PUser "b") "A").
  vm_compute in Hd. injection Hd as <- <- <-.
  destruct H as [u Hu]; [decide_it | decide_it |].
  vm_compute in Hu. discriminate.
Qed.

(** ** A typing event without payload *)

(** The typing handler has no try block: when a joined socket sends
    'typing' with no payload, reading [data.isTyping] throws and the run
    ends there. *)
Example typing_without_payload_throws :
  (run (tr_ab ++ [(env0, Typing "A" None); (env0, Disconnect "B")]) (initial ∅ ∅)).1
  = (None, st_ab).
Proof. vm_compute. reflexivity. Qed.

(** * Further properties of app.js *)

(** ** Listing the chats of a user *)

Lemma push_all_from snapshot : ∀ acc : list (string * Chat),
  foldl (λ found doc, found ++ [(doc.1, doc.2)]) acc snapshot = acc ++ snapshot.
Proof.
  induction snapshot as [|[id d] l IH]; intros acc; cbn.
  - by rewrite app_nil_r.
  - rewrite IH. by rewrite <- app_assoc.
Qed.

Lemma push_all_id snapshot : push_all snapshot = snapshot.
Proof. unfold push_all. by rewrite push_all_from. Qed.

(** X1: the listing answers with exactly the stored chats whose participants
    contain the user, each once, and changes nothing; when the query throws
    it answers 500 "Failed to fetch chats". *)
Theorem get_chats_lists_own env u σ :
  (fault env ≠ Some 0 →
     ∃ found,
       get_chats env u σ = (Some (ChatsOk found), σ, []) ∧
       (∀ id d, (id, d) ∈ found ↔ chats σ !! id = Some d ∧ u ∈ participants d) ∧
       NoDup found.*1) ∧
  (fault env = Some 0 →
     get_chats env u σ = (Some (ChatsFail500 "Failed to fetch chats"), σ, [])).
Proof.
  split.
  - intros Hf.
    exists (filter (λ doc, u ∈ participants doc.2) (map_to_list (chats σ))).
    split_and!.
    + unfold get_chats, chats_where_contains. rewrite throws_false by done.
      unfold_m. by rewrite push_all_id.
    + intros id d. rewrite list_elem_of_filter, elem_of_map_to_list. cbn. tauto.
    + apply (sublist_NoDup _ (map_to_list (chats σ)).*1).
      * apply NoDup_fst_map_to_list.
      * apply fmap_sublist, sublist_filter.
  - intros Hf. unfold get_chats, chats_where_contains.
    by rewrite throws_true by done.
Qed.

(** ** What the store keeps *)


Lemma messages_kept_refl σ σ' : messages σ' = messages σ → messages_kept σ σ'.
Proof. intros E id m H. by rewrite E. Qed.





(** ** Who holds a session *)





(** ** Which records are stored *)





Lemma get_chats_lists_own_witness :
  (∃ found,
     get_chats env0 "a" st_ab = (Some (ChatsOk found), st_ab, []) ∧
     (∀ id d, (id, d) ∈ found ↔ chats st_ab !! id = Some d ∧ "a" ∈ participants d) ∧
     NoDup found.*1) ∧
  get_chats (env_fail 0) "a" st_ab
    = (Some (ChatsFail500 "Failed to fetch chats"), st_ab, []).
Proof.
  split.
  - apply (get_chats_lists_own env0 "a" st_ab). discriminate.
  - apply (get_chats_lists_own (env_fail 0) "a" st_ab). reflexivity.
Defined.

(** ** More on sending *)

(** X5: a sendMessage from a socket without a session is refused, with
    "Not properly connected to chat" when it carries a payload and with
    "Failed to send message" when it carries none; the error goes to that
    socket alone and nothing is stored, updated or broadcast. *)
Theorem send_before_join_refused env s data σ :
  lookup_session σ s = None →
  on_sendMessage env s data σ =
    refused s (match data with
               | Some _ => "Not properly connected to chat"
               | None => "Failed to send message"
               end) σ.
Proof.
  intros H. destruct data as [d|].
  - by apply on_sendMessage_no_session.
  - apply on_sendMessage_undefined.
Qed.

Lemma send_before_join_refused_witness :
  on_sendMessage env0 "A" (say "hi") st_open
    = refused "A" "Not properly connected to chat" st_open ∧
  on_sendMessage env0 "A" None st_open
    = refused "A" "Failed to send message" st_open.
Proof.
  split.
  - apply (send_before_join_refused env0 "A" (say "hi") st_open).
    vm_compute. reflexivity.
  - apply (send_before_join_refused env0 "A" None st_open).
    vm_compute. reflexivity.
Defined.

(** X6: storing and broadcasting are not one transaction.  When the record
    was added and then reading it back or updating the chat summary throws,
    the record stays in the store, the chat summary is as before, nothing is
    broadcast, and the sender gets "Failed to send message". *)
Theorem send_partial_failure env s u c t ts σ :
  reachable σ → lookup_session σ s = Some (u, c) → trim t ≠ "" →
  messages σ !! autoId env = None →
  fault env = Some 1 ∨ fault env = Some 2 →
  let d := {| sd_message := Some t; sd_timestamp := ts |} in
  ∃ σ',
    on_sendMessage env s (Some d) σ =
      (Some tt, σ',
       [ AAddMessage (autoId env) (message_data env u c d);
         AEmit s EvError (PStr "Failed to send message") ]) ∧
    messages σ' !! autoId env = Some (message_data env u c d) ∧
    chats σ' = chats σ.
Proof.
  intros Hr Hs Ht Hfresh Hf d.
  destruct (reachable_session_inv σ Hr s u c Hs) as (Hu & Hc & _).
  assert (Hok : falsy (sd_message d) || bool_decide (trim (str (sd_message d)) = "") = false).
  { cbn. rewrite (bool_decide_eq_false_2 (trim t = "")) by done.
    destruct t; [done|]. by rewrite bool_decide_eq_false_2. }
  exists (persisted env (message_data env u c d) σ). split_and!.
  - destruct Hf as [Hf|Hf].
    + by eapply on_sendMessage_get_fails.
    + eapply on_sendMessage_update_fails; eauto.
  - unfold persisted. cbn. apply lookup_insert_eq.
  - done.
Qed.

Lemma send_partial_failure_witness :
  ∃ σ',
    on_sendMessage (env_fail 2) "A" (say "hi") st_ab =
      (Some tt, σ',
       [ AAddMessage "m0" (message_data (env_fail 2) "a" "a_b"
                             {| sd_message := Some "hi"; sd_timestamp := None |});
         AEmit "A" EvError (PStr "Failed to send message") ]) ∧
    messages σ' !! "m0" = Some (message_data (env_fail 2) "a" "a_b"
                             {| sd_message := Some "hi"; sd_timestamp := None |}) ∧
    chats σ' = chats st_ab.
Proof.
  apply (send_partial_failure (env_fail 2) "A" "a" "a_b" "hi" None st_ab).
  - apply reachable_st_ab.
  - vm_compute. reflexivity.
  - vm_compute. discriminate.
  - vm_compute. reflexivity.
  - right. reflexivity.
Defined.

(** X7: the record a successful sendMessage stores carries the session's
    user and chat, the trimmed message, and the client's timestamp when it
    sent a non-zero one, the server's time otherwise; the chat summary then
    holds the trimmed message and the time of the update. *)
Theorem send_stores_record env s u c t ts σ :
  reachable σ → lookup_session σ s = Some (u, c) → trim t ≠ "" →
  fault env = None → messages σ !! autoId env = None →
  ∃ m d,
    messages (on_sendMessage env s
                (Some {| sd_message := Some t; sd_timestamp := ts |}) σ).1.2
      !! autoId env = Some m ∧
    senderId m = u ∧ chatId m = c ∧ message m = trim t ∧
    timestamp m = match ts with
                  | Some z => if bool_decide (z = 0%Z) then clock env 0 else z
                  | None => clock env 0
                  end ∧
    chats (on_sendMessage env s
             (Some {| sd_message := Some t; sd_timestamp := ts |}) σ).1.2
      !! c = Some d ∧
    lastMessage d = Some (trim t) ∧ lastMessageAt d = Some (clock env 2).
Proof.
  intros Hr Hs Ht Hf Hfresh.
  destruct (reachable_session_inv σ Hr s u c Hs) as (Hu & Hc & _ & _ & [chat Hch]).
  set (d := {| sd_message := Some t; sd_timestamp := ts |}).
  assert (Hok : falsy (sd_message d) || bool_decide (trim (str (sd_message d)) = "") = false).
  { cbn. rewrite (bool_decide_eq_false_2 (trim t = "")) by done.
    destruct t; [done|]. by rewrite bool_decide_eq_false_2. }
  rewrite (on_sendMessage_success env s u c σ Hs Hu Hc d chat Hok Hfresh Hf Hch).
  eexists (message_data env u c d), _. cbn [fst snd]. split_and!.
  - unfold summarised, persisted. cbn. apply lookup_insert_eq.
  - done.
  - done.
  - done.
  - cbn. by destruct ts.
  - unfold summarised, persisted. cbn. apply lookup_insert_eq.
  - done.
  - done.
Qed.

Lemma send_stores_record_witness :
  ∃ m d,
    messages (on_sendMessage env0 "A"
                (Some {| sd_message := Some " hi "; sd_timestamp := Some 7%Z |}) st_ab).1.2
      !! "m0" = Some m ∧
    senderId m = "a" ∧ chatId m = "a_b" ∧ message m = trim " hi " ∧
    timestamp m = 7%Z ∧
    chats (on_sendMessage env0 "A"
             (Some {| sd_message := Some " hi "; sd_timestamp := Some 7%Z |}) st_ab).1.2
      !! "a_b" = Some d ∧
    lastMessage d = Some (trim " hi ") ∧ lastMessageAt d = Some 0%Z.
Proof.
  apply (send_stores_record env0 "A" "a" "a_b" " hi " (Some 7%Z) st_ab).
  - apply reachable_st_ab.
  - vm_compute. reflexivity.
  - vm_compute. discriminate.
  - reflexivity.
  - vm_compute. reflexivity.
Defined.

(** ** Typing *)



(** X9: the typing handler has no try block.  When a joined socket sends
    'typing' without a payload, reading [data.isTyping] throws out of the
    handler: nothing is sent, and no later event of the run is handled. *)
Theorem typing_without_payload_ends_run env s u c tr σ :
  reachable σ → lookup_session σ s = Some (u, c) →
  run ((env, Typing s None) :: tr) σ = (None, σ, []).
Proof.
  intros Hr Hs. destruct (reachable_session_inv σ Hr s u c Hs) as (Hu & Hc & Hin & _).
  rewrite run_cons. cbn [dispatch]. rewrite dispatch_connected by done.
  by rewrite (on_typing_undefined s u c).
Qed.

Lemma typing_without_payload_ends_run_witness :
  run [(env0, Typing "A" None); (env0, SendMessage "B" (say "hi"))] st_ab
    = (None, st_ab, []).
Proof.
  apply (typing_without_payload_ends_run env0 "A" "a" "a_b"
           [(env0, SendMessage "B" (say "hi"))] st_ab).
  - apply reachable_st_ab.
  - vm_compute. reflexivity.
Defined.

(** ** Joining, once more *)

(** X10: a join that does not succeed leaves the whole state as it was.  A
    join without payload, or one whose store read throws, is answered with
    "Failed to join chat". *)
Theorem failed_join_changes_nothing env s data σ :
  (succeeded (on_join env s data σ).2 = false →
     snd (fst (on_join env s data σ)) = σ) ∧
  ((data = None ∨
    (∃ u c, data = join_as u c ∧ u ≠ "" ∧ c ≠ "" ∧ fault env = Some 0)) →
   on_join env s data σ = refused s "Failed to join chat" σ).
Proof.
  split.
  - destruct (on_join_cases env s data σ)
      as [(u & c & chat & _ & _ & _ & _ & _ & ->)|[msg ->]]; [done|done].
  - intros [->|(u & c & -> & Hu & Hc & Hf)].
    + apply on_join_undefined.
    + by apply on_join_store_fault.
Qed.

Lemma failed_join_changes_nothing_witness :
  snd (fst (on_join env0 "A" (join_as "c" "a_b") st_ab)) = st_ab ∧
  on_join (env_fail 0) "A" (join_as "a" "a_b") st_ab
    = refused "A" "Failed to join chat" st_ab.
Proof.
  split.
  - apply (failed_join_changes_nothing env0 "A" (join_as "c" "a_b") st_ab).
    vm_compute. reflexivity.
  - apply (failed_join_changes_nothing (env_fail 0) "A" (join_as "a" "a_b") st_ab).
    right. exists "a", "a_b". split_and!; [reflexivity|discriminate..|reflexivity].
Defined.

(** ** Rooms *)

(** X11: no handler ever takes a socket out of a room; a socket leaves its
    rooms only when it disconnects, and then it leaves all of them. *)
Theorem rooms_left_only_on_disconnect env e σ :
  (∀ x room, x ∈ members σ room →
     x ∈ members (dispatch env e σ).1.2 room ∨ e = Disconnect x) ∧
  (∀ x room, e = Disconnect x → x ∈ sockets σ →
     x ∉ members (dispatch env e σ).1.2 room).
Proof.
  split.
  - intros x room Hx.
    destruct (dispatch env e σ) as [[r σ'] l] eqn:H. cbn [fst snd].
    destruct e as [s|s data|s data|s data|s|body]; cbn [dispatch] in H.
    + left. unfold_m. destruct (bool_decide (s ∈ sockets σ)); simplify_eq; [done|].
      rewrite members_sio_connect. destruct (decide _); [|done].
      apply elem_of_union. by right.
    + left. destruct (decide (s ∈ sockets σ)) as [Hs|Hs];
        [rewrite dispatch_connected in H by done
        |rewrite dispatch_not_connected in H by done; by simplify_eq].
      destruct (on_join_cases env s data σ)
        as [(u & c & chat & _ & _ & _ & _ & _ & Hj)|[msg Hj]];
        rewrite Hj in H; simplify_eq; [|done].
      unfold joined, register.
      rewrite (members_eq (set_rooms (room_add s c) σ)) by done.
      rewrite members_room_add. destruct (decide _); [|done].
      apply elem_of_union. by right.
    + left. destruct (decide (s ∈ sockets σ)) as [Hs|Hs];
        [rewrite dispatch_connected in H by done
        |rewrite dispatch_not_connected in H by done; by simplify_eq].
      apply on_sendMessage_frame in H as (_ & _ & _ & _ & Hro & _).
      by rewrite (members_eq σ σ').
    + left. destruct (decide (s ∈ sockets σ)) as [Hs|Hs];
        [rewrite dispatch_connected in H by done
        |rewrite dispatch_not_connected in H by done; by simplify_eq].
      by apply on_typing_frame in H as [-> _].
    + destruct (decide (s = x)) as [->|Hne]; [by right|left].
      destruct (decide (s ∈ sockets σ)) as [Hs|Hs];
        [|rewrite dispatch_not_connected in H by done; by simplify_eq].
      change (dispatch env (Disconnect s) σ = (r, σ', l)) in H.
      rewrite dispatch_disconnect in H by done.
      assert (Hin : x ∈ members (sio_close s σ) room).
      { rewrite members_sio_close, elem_of_difference, elem_of_singleton.
        split; [done|congruence]. }
      destruct (userSockets σ !! s) as [[u c]|] eqn:Hsess.
      * rewrite (on_disconnect_session s u c) in H by done. simplify_eq.
        unfold unregister. by rewrite (members_eq (sio_close s σ)).
      * rewrite on_disconnect_no_session in H by done. by simplify_eq.
    + left. apply post_chats_frame in H as (_ & _ & _ & _ & Hro & _).
      by rewrite (members_eq σ σ').
  - intros x room -> Hs. rewrite dispatch_disconnect by done.
    assert (Hout : x ∉ members (sio_close x σ) room).
    { rewrite members_sio_close, elem_of_difference, elem_of_singleton. tauto. }
    destruct (userSockets σ !! x) as [[u c]|] eqn:Hsess.
    + rewrite (on_disconnect_session x u c) by done. cbn [fst snd].
      unfold unregister. by rewrite (members_eq (sio_close x σ)).
    + by rewrite on_disconnect_no_session.
Qed.

Lemma rooms_left_only_on_disconnect_witness :
  ("A" ∈ members (dispatch env0 (Join "A" (join_as "a" "a_c")) st_ab).1.2 "a_b"
   ∨ Join "A" (join_as "a" "a_c") = Disconnect "A") ∧
  "A" ∉ members (dispatch env0 (Disconnect "A") st_ab).1.2 "a_b".
Proof.
  split.
  - destruct (rooms_left_only_on_disconnect env0 (Join "A" (join_as "a" "a_c")) st_ab)
      as [H _].
    apply H. decide_it.
  - destruct (rooms_left_only_on_disconnect env0 (Disconnect "A") st_ab) as [_ H].
    apply H.
    + reflexivity.
    + decide_it.
Defined.

Lemma dispatch_rooms_connected env e σ r σ' l :
  rooms_connected σ → dispatch env e σ = (r, σ', l) → rooms_connected σ'.
Proof.
  intros Hinv H x room Hx.
  destruct e as [s|s data|s data|s data|s|body]; cbn [dispatch] in H.
  - unfold_m. destruct (bool_decide (s ∈ sockets σ)); simplify_eq; [by eapply Hinv|].
    rewrite members_sio_connect in Hx. cbn. apply elem_of_union.
    destruct (decide (s = room)) as [->|]; [|right; by eapply Hinv].
    apply elem_of_union in Hx as [?|?]; [by left|right; by eapply Hinv].
  - destruct (decide (s ∈ sockets σ)) as [Hs|Hs];
      [rewrite dispatch_connected in H by done
      |rewrite dispatch_not_connected in H by done; simplify_eq; by eapply Hinv].
    destruct (on_join_cases env s data σ)
      as [(u & c & chat & _ & _ & _ & _ & _ & Hj)|[msg Hj]];
      rewrite Hj in H; simplify_eq; [|by eapply Hinv].
    unfold joined, register in Hx |- *.
    rewrite (members_eq (set_rooms (room_add s c) σ)) in Hx by done.
    rewrite members_room_add in Hx. cbn.
    destruct (decide _); [|by eapply Hinv].
    apply elem_of_union in Hx as [->%elem_of_singleton|?]; [done|by eapply Hinv].
  - destruct (decide (s ∈ sockets σ)) as [Hs|Hs];
      [rewrite dispatch_connected in H by done
      |rewrite dispatch_not_connected in H by done; simplify_eq; by eapply Hinv].
    apply on_sendMessage_frame in H as (_ & _ & _ & Hso & Hro & _).
    rewrite (members_eq σ σ') in Hx by done. rewrite Hso. by eapply Hinv.
  - destruct (decide (s ∈ sockets σ)) as [Hs|Hs];
      [rewrite dispatch_connected in H by done
      |rewrite dispatch_not_connected in H by done; simplify_eq; by eapply Hinv].
    apply on_typing_frame in H as [-> _]. by eapply Hinv.
  - destruct (decide (s ∈ sockets σ)) as [Hs|Hs];
      [|rewrite dispatch_not_connected in H by done; simplify_eq; by eapply Hinv].
    change (dispatch env (Disconnect s) σ = (r, σ', l)) in H.
    rewrite dispatch_disconnect in H by done.
    assert (Hclosed : ∀ y, y ∈ members (sio_close s σ) room → y ∈ sockets σ ∖ {[s]}).
    { intros y. rewrite members_sio_close, !elem_of_difference.
      intros [? ?]. split; [by eapply Hinv|done]. }
    destruct (userSockets σ !! s) as [[u c]|] eqn:Hsess.
    + rewrite (on_disconnect_session s u c) in H by done. simplify_eq.
      unfold unregister in Hx |- *.
      rewrite (members_eq (sio_close s σ)) in Hx by done. cbn. by apply Hclosed.
    + rewrite on_disconnect_no_session in H by done. simplify_eq. cbn. by apply Hclosed.
  - apply post_chats_frame in H as (_ & _ & _ & Hso & Hro & _).
    rewrite (members_eq σ σ') in Hx by done. rewrite Hso. by eapply Hinv.
Qed.

Lemma run_rooms_connected tr : ∀ σ r σ' l,
  rooms_connected σ → run tr σ = (r, σ', l) → rooms_connected σ'.
Proof.
  induction tr as [|[env e] tr IH]; intros σ r σ' l Hinv H.
  - cbn [run] in H. unfold ret in H. by injection H as <- <- <-.
  - rewrite run_cons in H.
    destruct (dispatch env e σ) as [[[[]|] σ1] l1] eqn:Hd.
    + destruct (run tr σ1) as [[r2 σ2] l2] eqn:Hr. injection H as <- <- <-.
      eapply IH; [|done]. by eapply dispatch_rooms_connected.
    + injection H as <- <- <-. by eapply dispatch_rooms_connected.
Qed.

(** X12: in every reachable state the rooms hold connected sockets only: a
    broadcast never addresses a socket that has closed. *)
Theorem rooms_hold_connected_sockets σ x room :
  reachable σ → x ∈ members σ room → x ∈ sockets σ.
Proof.
  intros (cs & ms & tr & log & H) Hx.
  eapply (run_rooms_connected tr (initial cs ms)); [|done..].
  intros y ro Hy. unfold members in Hy. cbn in Hy. rewrite lookup_empty in Hy.
  by apply elem_of_empty in Hy.
Qed.

Lemma rooms_hold_connected_sockets_witness : "B" ∈ sockets st_ab.
Proof.
  apply (rooms_hold_connected_sockets st_ab "B" "a_b").
  - apply reachable_st_ab.
  - decide_it.
Defined.

(** ** A socket that changes its user *)

(** X13: a socket that joins as one user, joins again as another, and then
    closes leaves the first user's entry of activeUsers behind: it still
    points to the closed socket, which has no session any more. *)
Theorem closed_socket_stays_in_activeUsers
    env1 env2 env3 s u1 u2 c1 c2 chat1 chat2 σ :
  s ∈ sockets σ → u1 ≠ u2 → u1 ≠ "" → u2 ≠ "" → c1 ≠ "" → c2 ≠ "" →
  fault env1 ≠ Some 0 → fault env2 ≠ Some 0 →
  chats σ !! c1 = Some chat1 → u1 ∈ participants chat1 →
  chats σ !! c2 = Some chat2 → u2 ∈ participants chat2 →
  ∃ σ' l,
    run [(env1, Join s (join_as u1 c1)); (env2, Join s (join_as u2 c2));
         (env3, Disconnect s)] σ = (Some tt, σ', l) ∧
    (s ∉ sockets σ') ∧
    lookup_session σ' s = None ∧
    activeUsers σ' !! u1 = Some s ∧
    activeUsers σ' !! u2 = None.
Proof.
  intros Hs Hne Hu1 Hu2 Hc1 Hc2 Hf1 Hf2 Hch1 Hp1 Hch2 Hp2.
  set (σ1 := joined s u1 c1 σ). set (σ2 := joined s u2 c2 σ1).
  assert (Hsess : userSockets (sio_close s σ2) !! s = Some (u2, c2)).
  { subst σ2. unfold joined, register. cbn. apply lookup_insert_eq. }
  eexists (unregister s u2 (sio_close s σ2)), _. split_and!.
  - rewrite run_cons. cbn [dispatch]. rewrite dispatch_connected by done.
    unfold join_as. rewrite (on_join_success env1 s u1 c1 chat1 σ) by done.
    fold σ1. rewrite run_cons. cbn [dispatch]. rewrite dispatch_connected by done.
    rewrite (on_join_success env2 s u2 c2 chat2 σ1) by done. fold σ2.
    rewrite run_cons. rewrite dispatch_disconnect by done.
    rewrite (on_disconnect_session s u2 c2) by done. cbn [run]. unfold ret. done.
  - cbn. rewrite elem_of_difference, elem_of_singleton. tauto.
  - unfold lookup_session. cbn. apply lookup_delete_eq.
  - cbn. rewrite lookup_delete_ne by done. rewrite lookup_insert_ne by done.
    apply lookup_insert_eq.
  - cbn. apply lookup_delete_eq.
Qed.

Lemma closed_socket_stays_in_activeUsers_witness :
  ∃ σ' l,
    run [(env0, Join "A" (join_as "a" "a_b")); (env0, Join "A" (join_as "b" "a_b"));
         (env0, Disconnect "A")] st_open = (Some tt, σ', l) ∧
    ("A" ∉ sockets σ') ∧
    lookup_session σ' "A" = None ∧
    activeUsers σ' !! "a" = Some "A" ∧
    activeUsers σ' !! "b" = None.
Proof.
  apply (closed_socket_stays_in_activeUsers env0 env0 env0 "A" "a" "b" "a_b" "a_b"
           {| participants := ["a"; "b"]; createdAt := 0;
              lastMessage := None; lastMessageAt := None |}
           {| participants := ["a"; "b"]; createdAt := 0;
              lastMessage := None; lastMessageAt := None |} st_open).
  - decide_it.
  - discriminate.
  - discriminate.
  - discriminate.
  - discriminate.
  - discriminate.
  - discriminate.
  - discriminate.
  - vm_compute. reflexivity.
  - decide_it.
  - vm_compute. reflexivity.
  - decide_it.
Defined.

(** ** Creating a chat, once more *)

(** X14: a creation request whose participants are missing or are not
    exactly two is answered 400 without touching the store, whatever the
    store would do; a request for a pair whose store read throws, or whose
    chat is absent and whose store write throws, is answered 500.  In all
    these cases the state is unchanged. *)
Theorem create_chat_rejections env body σ :
  ((body = None ∨ ∃ ps, body = Some ps ∧ length ps ≠ 2) →
   post_chats env body σ =
     (Some tt, σ, [ARespond (Bad400 "Exactly 2 participants required")])) ∧
  (∀ a b, body = Some [a; b] →
     fault env = Some 0 ∨ (fault env = Some 1 ∧ chats σ !! chatId_of [a; b] = None) →
     post_chats env body σ =
       (Some tt, σ, [ARespond (Fail500 "Failed to create chat")])).
Proof.
  split.
  - intros [->|(ps & -> & Hlen)]; [done|].
    unfold post_chats. unfold_m. by rewrite bool_decide_eq_false_2.
  - intros a b -> Hf. unfold post_chats. unfold_m. cbn [length negb].
    rewrite (bool_decide_eq_true_2 (2 = 2)) by done. cbn [negb].
    fold (chatId_of [a; b]). destruct Hf as [Hf|[Hf Hch]].
    + by rewrite (throws_true _ _ Hf).
    + rewrite (throws_false env 0) by (rewrite Hf; done). rewrite Hch.
      by rewrite (throws_true _ _ Hf).
Qed.

Lemma create_chat_rejections_witness :
  post_chats (env_fail 0) (Some ["a"]) st_ab =
    (Some tt, st_ab, [ARespond (Bad400 "Exactly 2 participants required")]) ∧
  post_chats (env_fail 1) (Some ["x"; "y"]) st_ab =
    (Some tt, st_ab, [ARespond (Fail500 "Failed to create chat")]).
Proof.
  split.
  - destruct (create_chat_rejections (env_fail 0) (Some ["a"]) st_ab) as [H _].
    apply H. right. exists ["a"]. split; [reflexivity|discriminate].
  - destruct (create_chat_rejections (env_fail 1) (Some ["x"; "y"]) st_ab) as [_ H].
    apply (H "x" "y"); [reflexivity|]. right. split; [reflexivity|].
    vm_compute. reflexivity.
Defined.

(** X15: a creation request for a pair whose chat identifier is already in
    the store answers 200 with the identifier and the sorted pair of the
    request and leaves the stored chat, whatever it holds, and the rest of
    the state untouched. *)
Theorem create_chat_keeps_existing env a b d σ :
  fault env ≠ Some 0 → chats σ !! chatId_of [a; b] = Some d →
  post_chats env (Some [a; b]) σ =
    (Some tt, σ, [ARespond (Ok200 (chatId_of [a; b]) (sort [a; b]))]).
Proof.
  intros Hf Hch. unfold post_chats. unfold_m. cbn [length negb].
  rewrite (bool_decide_eq_true_2 (2 = 2)) by done. cbn [negb].
  fold (chatId_of [a; b]). by rewrite (throws_false _ _ Hf), Hch.
Qed.

Lemma create_chat_keeps_existing_witness :
  post_chats env0 (Some ["b"; "a"]) st_ab =
    (Some tt, st_ab, [ARespond (Ok200 (chatId_of ["b"; "a"]) (sort ["b"; "a"]))]).
Proof.
  apply (create_chat_keeps_existing env0 "b" "a"
           {| participants := ["a"; "b"]; createdAt := 0;
              lastMessage := None; lastMessageAt := None |} st_ab).
  - discriminate.
  - vm_compute. reflexivity.
Defined.

(** ** How the handlers compose *)

Lemma chatId_of_pair_not_empty a b : chatId_of [a; b] ≠ "".
Proof.
  unfold chatId_of. rewrite sort_pair.
  destruct (js_lt a b); cbn; [by destruct a|by destruct b].
Qed.

Lemma sort_pair_members a b u : u ∈ sort [a; b] ↔ u = a ∨ u = b.
Proof.
  rewrite sort_pair. destruct (js_lt a b);
    rewrite !elem_of_cons, elem_of_nil; tauto.
Qed.

(** X16: once a creation request has made the chat of a pair, a join to
    that chat succeeds for a userId that is not empty exactly when it is one
    of the two participants: everybody else is refused with "Not authorized
    for this chat".  The empty userId is refused with "UserId and chatId are
    required", also when it is one of the pair the chat was made for. *)
Theorem created_chat_accepts_its_pair env env' a b s u σ :
  fault env = None → chats σ !! chatId_of [a; b] = None →
  fault env' ≠ Some 0 →
  ∃ σ1,
    post_chats env (Some [a; b]) σ =
      (Some tt, σ1,
       [ASetChat (chatId_of [a; b]) (new_chat env [a; b]);
        ARespond (Ok200 (chatId_of [a; b]) (sort [a; b]))]) ∧
    (u ≠ "" → u = a ∨ u = b →
       on_join env' s (join_as u (chatId_of [a; b])) σ1 =
         (Some tt, joined s u (chatId_of [a; b]) σ1,
          join_log s u (chatId_of [a; b]) σ1)) ∧
    (u ≠ "" → u ≠ a → u ≠ b →
       on_join env' s (join_as u (chatId_of [a; b])) σ1 =
         refused s "Not authorized for this chat" σ1) ∧
    (u = "" →
       on_join env' s (join_as u (chatId_of [a; b])) σ1 =
         refused s "UserId and chatId are required" σ1).
Proof.
  intros Hf Hch Hf'.
  exists (set_chats <[chatId_of [a; b] := new_chat env [a; b]]> σ).
  assert (Hnew : chats (set_chats <[chatId_of [a; b] := new_chat env [a; b]]> σ)
                   !! chatId_of [a; b] = Some (new_chat env [a; b])).
  { cbn. apply lookup_insert_eq. }
  split_and!.
  - by rewrite post_chats_pair, Hch.
  - intros Hu Hab. eapply on_join_success; try done.
    + apply chatId_of_pair_not_empty.
    + change (u ∈ sort [a; b]). by apply sort_pair_members.
  - intros Hu Ha Hb. eapply on_join_not_authorized; try done.
    + apply chatId_of_pair_not_empty.
    + change (u ∉ sort [a; b]). rewrite sort_pair_members. tauto.
  - intros ->. by apply on_join_missing.
Qed.

Lemma created_chat_accepts_its_pair_witness :
  (∃ σ1,
    post_chats env0 (Some ["y"; "x"]) st_open =
      (Some tt, σ1,
       [ASetChat (chatId_of ["y"; "x"]) (new_chat env0 ["y"; "x"]);
        ARespond (Ok200 (chatId_of ["y"; "x"]) (sort ["y"; "x"]))]) ∧
    on_join env0 "A" (join_as "x" (chatId_of ["y"; "x"])) σ1 =
      (Some tt, joined "A" "x" (chatId_of ["y"; "x"]) σ1,
       join_log "A" "x" (chatId_of ["y"; "x"]) σ1)) ∧
  (∃ σ1,
    post_chats env0 (Some ["y"; "x"]) st_open =
      (Some tt, σ1,
       [ASetChat (chatId_of ["y"; "x"]) (new_chat env0 ["y"; "x"]);
        ARespond (Ok200 (chatId_of ["y"; "x"]) (sort ["y"; "x"]))]) ∧
    on_join env0 "A" (join_as "z" (chatId_of ["y"; "x"])) σ1 =
      refused "A" "Not authorized for this chat" σ1) ∧
  (∃ σ1,
    post_chats env0 (Some [""; "x"]) st_open =
      (Some tt, σ1,
       [ASetChat (chatId_of [""; "x"]) (new_chat env0 [""; "x"]);
        ARespond (Ok200 (chatId_of [""; "x"]) (sort [""; "x"]))]) ∧
    on_join env0 "A" (join_as "" (chatId_of [""; "x"])) σ1 =
      refused "A" "UserId and chatId are required" σ1).
Proof.
  split_and!.
  - destruct (created_chat_accepts_its_pair env0 env0 "y" "x" "A" "x" st_open)
      as (σ1 & Hp & Hj & _); [reflexivity|vm_compute; reflexivity|discriminate|].
    exists σ1. split; [exact Hp|]. apply Hj; [discriminate|by right].
  - destruct (created_chat_accepts_its_pair env0 env0 "y" "x" "A" "z" st_open)
      as (σ1 & Hp & _ & Hj & _); [reflexivity|vm_compute; reflexivity|discriminate|].
    exists σ1. split; [exact Hp|]. apply Hj; discriminate.
  - destruct (created_chat_accepts_its_pair env0 env0 "" "x" "A" "" st_open)
      as (σ1 & Hp & _ & _ & Hj); [reflexivity|vm_compute; reflexivity|discriminate|].
    exists σ1. split; [exact Hp|]. by apply Hj.
Defined.



(** ** Who is told what *)

Lemma on_sendMessage_addressed env s data σ :
  Forall (addressed (Some s)) (on_sendMessage env s data σ).2.
Proof.
  unfold on_sendMessage. unfold_m. simpl_m.
  repeat (case_match; simplify_eq); cbn [snd];
    repeat (apply Forall_cons_2; [by cbn; eauto|]); apply Forall_nil_2.
Qed.

(** X18: whatever event is handled, an 'error' or 'joined' event goes to
    the socket the event came from and to nobody else, newMessage goes to
    the whole room, and userOnline, userOffline and userTyping go to the room
    without that socket; no other event is ever sent. *)
Theorem events_are_addressed env e σ :
  Forall (addressed (socket_of e)) (dispatch env e σ).2.
Proof.
  destruct (dispatch env e σ) as [[r σ'] l] eqn:H. cbn [snd].
  destruct e as [s|s data|s data|s data|s|body]; cbn [dispatch socket_of] in *.
  - unfold_m. destruct (bool_decide (s ∈ sockets σ)); simplify_eq; apply Forall_nil_2.
  - destruct (decide (s ∈ sockets σ)) as [Hs|Hs];
      [rewrite dispatch_connected in H by done
      |rewrite dispatch_not_connected in H by done; simplify_eq; apply Forall_nil_2].
    destruct (on_join_cases env s data σ)
      as [(u & c & chat & _ & _ & _ & _ & _ & Hj)|[msg Hj]];
      rewrite Hj in H; simplify_eq; unfold join_log;
      repeat (apply Forall_cons_2; [by cbn; eauto|]); apply Forall_nil_2.
  - destruct (decide (s ∈ sockets σ)) as [Hs|Hs];
      [rewrite dispatch_connected in H by done
      |rewrite dispatch_not_connected in H by done; simplify_eq; apply Forall_nil_2].
    pose proof (on_sendMessage_addressed env s data σ) as Ha. by rewrite H in Ha.
  - destruct (decide (s ∈ sockets σ)) as [Hs|Hs];
      [rewrite dispatch_connected in H by done
      |rewrite dispatch_not_connected in H by done; simplify_eq; apply Forall_nil_2].
    apply on_typing_frame in H as [_ H]. eapply Forall_impl; [done|].
    by intros a (u & c & p & _ & ->).
  - destruct (decide (s ∈ sockets σ)) as [Hs|Hs];
      [|rewrite dispatch_not_connected in H by done; simplify_eq; apply Forall_nil_2].
    change (dispatch env (Disconnect s) σ = (r, σ', l)) in H.
    rewrite dispatch_disconnect in H by done.
    destruct (userSockets σ !! s) as [[u c]|] eqn:Hsess.
    + rewrite (on_disconnect_session s u c) in H by done. simplify_eq.
      unfold disconnect_log.
      repeat (apply Forall_cons_2; [by cbn; eauto|]); apply Forall_nil_2.
    + rewrite on_disconnect_no_session in H by done. simplify_eq. apply Forall_nil_2.
  - apply post_chats_frame in H as (_ & _ & _ & _ & _ & _ & H).
    eapply Forall_impl; [done|]. by intros [].
Qed.

(** ** The map nothing reads *)

Lemma dispatch_ignores_activeUsers env e σ1 σ2 :
  same_but_activeUsers σ1 σ2 →
  (dispatch env e σ1).1.1 = (dispatch env e σ2).1.1 ∧
  (dispatch env e σ1).2 = (dispatch env e σ2).2 ∧
  same_but_activeUsers (dispatch env e σ1).1.2 (dispatch env e σ2).1.2.
Proof.
  destruct σ1 as [a1 us so ro ch ms], σ2 as [a2 us2 so2 ro2 ch2 ms2].
  intros (E1 & E2 & E3 & E4 & E5). cbn in E1, E2, E3, E4, E5. subst.
  unfold same_but_activeUsers.
  destruct e as [s|s data|s data|s data|s|body]; cbn [dispatch].
  - unfold_m. cbn. by destruct (bool_decide (s ∈ so2)).
  - unfold connected, on_join. unfold_m. unfold members. cbn.
    repeat (case_match; simplify_eq; cbn in * ); first [done | congruence].
  - unfold connected, on_sendMessage. unfold_m. unfold members. cbn.
    repeat (case_match; simplify_eq; cbn in * ); first [done | congruence].
  - unfold connected, on_typing. unfold_m. unfold members. cbn.
    repeat (case_match; simplify_eq; cbn in * ); first [done | congruence].
  - unfold connected, on_disconnect. unfold_m. unfold members. cbn.
    repeat (case_match; simplify_eq; cbn in * ); first [done | congruence].
  - unfold post_chats. unfold_m. cbn.
    repeat (case_match; simplify_eq; cbn in * ); first [done | congruence].
Qed.

Lemma run_ignores_activeUsers tr : ∀ σ1 σ2,
  same_but_activeUsers σ1 σ2 →
  (run tr σ1).1.1 = (run tr σ2).1.1 ∧
  (run tr σ1).2 = (run tr σ2).2 ∧
  same_but_activeUsers (run tr σ1).1.2 (run tr σ2).1.2.
Proof.
  induction tr as [|[env e] tr IH]; intros σ1 σ2 Hsame; [done|].
  rewrite !run_cons.
  destruct (dispatch_ignores_activeUsers env e σ1 σ2 Hsame) as (Hr & Hl & Hs).
  destruct (dispatch env e σ1) as [[r1 τ1] l1], (dispatch env e σ2) as [[r2 τ2] l2].
  cbn in Hr, Hl, Hs. subst r2 l2.
  destruct r1 as [[]|]; [|done].
  destruct (IH τ1 τ2 Hs) as (Hr' & Hl' & Hs').
  destruct (run tr τ1) as [[r1' υ1] l1'], (run tr τ2) as [[r2' υ2] l2'].
  cbn in Hr', Hl', Hs' |- *. by subst.
Qed.

(** X19: nothing ever reads activeUsers.  Replacing its content by any
    other map changes neither the outcome of a run, nor anything the run
    sends or writes, nor any other part of the state it ends in. *)
Theorem activeUsers_is_never_read tr σ m :
  (run tr σ).1.1 = (run tr (set_activeUsers (λ _, m) σ)).1.1 ∧
  (run tr σ).2 = (run tr (set_activeUsers (λ _, m) σ)).2 ∧
  same_but_activeUsers (run tr σ).1.2 (run tr (set_activeUsers (λ _, m) σ)).1.2.
Proof. by apply run_ignores_activeUsers. Qed.

(** X20: a chat that a creation request has just made shows up in the
    listing of each of its two participants, with the sorted pair as
    participants and no last message. *)
Theorem created_chat_is_listed env env' a b u σ :
  fault env = None → chats σ !! chatId_of [a; b] = None →
  fault env' ≠ Some 0 → u = a ∨ u = b →
  ∃ found,
    get_chats env' u (post_chats env (Some [a; b]) σ).1.2 =
      (Some (ChatsOk found), (post_chats env (Some [a; b]) σ).1.2, []) ∧
    (chatId_of [a; b], new_chat env [a; b]) ∈ found.
Proof.
  intros Hf Hch Hf' Hu. rewrite post_chats_pair, Hch by done. cbn [fst snd].
  destruct (get_chats_lists_own env' u
              (set_chats <[chatId_of [a; b] := new_chat env [a; b]]> σ)) as [Hlist _].
  destruct (Hlist Hf') as (found & Hget & Hfound & _).
  exists found. split; [exact Hget|]. apply Hfound. split.
  - cbn. apply lookup_insert_eq.
  - change (u ∈ sort [a; b]). by apply sort_pair_members.
Qed.

Lemma created_chat_is_listed_witness :
  ∃ found,
    get_chats env0 "x" (post_chats env0 (Some ["y"; "x"]) st_ab).1.2 =
      (Some (ChatsOk found), (post_chats env0 (Some ["y"; "x"]) st_ab).1.2, []) ∧
    (chatId_of ["y"; "x"], new_chat env0 ["y"; "x"]) ∈ found.
Proof.
  apply (created_chat_is_listed env0 env0 "y" "x" "x" st_ab).
  - reflexivity.
  - vm_compute. reflexivity.
  - discriminate.
  - right. reflexivity.
Defined.

(** * The server between its awaits *)

(** ** A handler that runs alone *)

Ltac unfold_async :=
  unfold alone, play, move, start, connected_start, connected, join_start,
    send_start, post_start, resume, exec, answer, enqueue, socket_join_open,
    await, finished in *.

Ltac settle :=
  repeat (cbn;
          try match goal with
              | H : ?x = _ |- context [?x] => rewrite H
              end;
          rewrite ?lookup_insert_eq).

Lemma alone_send env s data σ :
  play (alone env (SendMessage s data)) {| state := σ; pending := [] |} =
  match dispatch env (SendMessage s data) σ with
  | (r, σ', l) => (r, {| state := σ'; pending := [] |}, l)
  end.
Proof.
  unfold_async. cbn [dispatch]. unfold connected, on_sendMessage. unfold_m. unfold members.
  destruct (bool_decide (s ∈ sockets σ)) eqn:Hs; [|by settle].
  destruct data as [d|]; [|by settle].
  destruct (userSockets σ !! s) as [[u c]|] eqn:Hsess; [|by settle].
  destruct (bool_decide (u = "")) eqn:Hu; [by settle|].
  destruct (bool_decide (c = "")) eqn:Hc; [by settle|].
  destruct (falsy (sd_message d)) eqn:Hm; [by settle|].
  destruct (bool_decide (trim (str (sd_message d)) = "")) eqn:Ht; [by settle|].
  destruct (throws env 0) eqn:H0; [by settle|].
  destruct (messages σ !! autoId env) eqn:Hid; [by settle|].
  destruct (throws env 1) eqn:H1; [by settle|].
  destruct (throws env 2) eqn:H2; [by settle|].
  destruct (chats σ !! c) eqn:Hch; [by settle|by settle].
Qed.

Lemma alone_join env s data σ :
  play (alone env (Join s data)) {| state := σ; pending := [] |} =
  match dispatch env (Join s data) σ with
  | (r, σ', l) => (r, {| state := σ'; pending := [] |}, l)
  end.
Proof.
  unfold_async. cbn [dispatch]. unfold connected, on_join. unfold_m. unfold members.
  destruct (bool_decide (s ∈ sockets σ)) eqn:Hs; [|by settle].
  destruct data as [[[u|] [c|]]|]; try by settle.
  - destruct (bool_decide (u = "")) eqn:Hu; [by settle|].
    destruct (bool_decide (c = "")) eqn:Hc; [by settle|].
    destruct (throws env 0) eqn:H0; [by settle|].
    destruct (chats σ !! c) as [chat|] eqn:Hch; [|by settle].
    destruct (includes (participants chat) u) eqn:Hp; settle; [|done].
    unfold room_add. by rewrite ?lookup_insert_eq.
  - destruct (bool_decide (u = "")) eqn:Hu; by settle.
Qed.

Lemma alone_post env body σ :
  play (alone env (PostChats body)) {| state := σ; pending := [] |} =
  match dispatch env (PostChats body) σ with
  | (r, σ', l) => (r, {| state := σ'; pending := [] |}, l)
  end.
Proof.
  unfold_async. cbn [dispatch]. unfold post_chats. unfold_m.
  destruct body as [ps|]; [|by settle].
  destruct (bool_decide (length ps = 2)) eqn:Hlen; [|by settle].
  destruct (throws env 0) eqn:H0; [by settle|].
  destruct (chats σ !! join "_" (sort ps)) as [chat|] eqn:Hch; [by settle|].
  destruct (throws env 1) eqn:H1; by settle.
Qed.

Lemma alone_is_dispatch env e σ :
  play (alone env e) {| state := σ; pending := [] |} =
  match dispatch env e σ with
  | (r, σ', l) => (r, {| state := σ'; pending := [] |}, l)
  end.
Proof.
  destruct e as [s|s data|s data|s data|s|body].
  - unfold_async. cbn [dispatch]. unfold_m.
    destruct (bool_decide (s ∈ sockets σ)) eqn:Hs; by settle.
  - apply alone_join.
  - apply alone_send.
  - unfold alone. cbn [play move start dispatch state pending]. unfold bind, finished, ret.
    destruct (connected s (on_typing s data) σ) as [[[[]|] σ1] l1]; cbn;
      by rewrite ?app_nil_r.
  - unfold alone. cbn [play move start dispatch state pending]. unfold bind at 1. unfold finished, ret.
    destruct (connected s (modify (sio_close s);;; on_disconnect s) σ)
      as [[[[]|] σ1] l1]; cbn; by rewrite ?app_nil_r.
  - apply alone_post.
Qed.

(** ** What every move keeps *)

Lemma falsy_str x : falsy x = false → str x ≠ "".
Proof. intros (s & -> & H)%falsy_false. done. Qed.

Lemma task_wf_mono σ σ' t : store_grows σ σ' → task_wf σ t → task_wf σ' t.
Proof.
  intros Hg. unfold task_wf. destruct (task_cont t); try done.
  intros (? & ? & ? & H). split_and!; try done. intros d Hd. by apply Hg, (H d).
Qed.

Lemma store_grows_eq σ σ' : chats σ' = chats σ → store_grows σ σ'.
Proof. intros E c H. by rewrite E. Qed.

Lemma exec_effect env k req σ res σ' l :
  exec env k req σ = (res, σ', l) →
  userSockets σ' = userSockets σ ∧ store_grows σ σ' ∧ messages_kept σ σ' ∧
  (∀ c d, req = RGetChat c → res = SChat (Some d) → is_Some (chats σ' !! c)).
Proof.
  unfold exec, answer. intros H.
  destruct req; unfold_m; repeat (case_match; simplify_eq); cbn; split_and!;
    try done; try (intros ? ? ? ?; simplify_eq; by eauto).
  all: try (intros x Hx; by cbn in * ).
  all: try (intros x v Hx; by cbn in * ).
  all: try (intros x Hx; cbn; rewrite lookup_insert; destruct (decide _); by eauto).
  all: intros x v Hx; cbn; rewrite lookup_insert_ne; [done|congruence].
Qed.

Lemma start_effect e σ r σ' l :
  start e σ = (r, σ', l) →
  chats σ' = chats σ ∧ messages σ' = messages σ ∧
  (∀ x v, userSockets σ' !! x = Some v → userSockets σ !! x = Some v) ∧
  (∀ req k cont, r = Some (Some (req, k, cont)) →
     ∀ τ, task_wf τ {| task_cont := cont; task_req := req; task_index := k;
                       task_res := None |}).
Proof.
  intros H. destruct e as [s|s data|s data|s data|s|body]; cbn [start] in H.
  - unfold finished in H. unfold_m.
    destruct (bool_decide (s ∈ sockets σ)); by simplify_eq.
  - unfold connected_start, join_start, await, finished in H. unfold_m.
    repeat (case_match; simplify_eq); split_and!; try done.
    intros req k cont [= <- <- <-] τ.
    match goal with Hf : _ || _ = false |- _ => apply orb_false_iff in Hf as [Hu Hc] end.
    split_and!; [by apply falsy_str|by apply falsy_str|done|done].
  - unfold connected_start, send_start, await, finished in H. unfold_m.
    repeat (case_match; simplify_eq); split_and!; try done.
    by intros req k cont [= <- <- <-] τ.
  - unfold bind, finished, ret in H.
    destruct (connected s (on_typing s data) σ) as [[r1 σ1] l1] eqn:Hd.
    assert (σ1 = σ) as ->.
    { destruct (decide (s ∈ sockets σ)) as [Hs|Hs];
        [rewrite dispatch_connected in Hd by done
        |rewrite dispatch_not_connected in Hd by done; by simplify_eq].
      by apply on_typing_frame in Hd as [-> _]. }
    destruct r1; by simplify_eq.
  - unfold bind at 1 in H. unfold finished, ret in H.
    destruct (connected s (modify (sio_close s);;; on_disconnect s) σ)
      as [[r1 σ1] l1] eqn:Hd.
    assert (chats σ1 = chats σ ∧ messages σ1 = messages σ ∧
            ∀ x v, userSockets σ1 !! x = Some v → userSockets σ !! x = Some v)
      as (? & ? & ?).
    { destruct (decide (s ∈ sockets σ)) as [Hs|Hs];
        [|rewrite dispatch_not_connected in Hd by done; by simplify_eq].
      change (dispatch env0 (Disconnect s) σ = (r1, σ1, l1)) in Hd.
      rewrite dispatch_disconnect in Hd by done.
      destruct (userSockets σ !! s) as [[u c]|] eqn:Hsess.
      - rewrite (on_disconnect_session s u c) in Hd by done. simplify_eq.
        split_and!; try done. intros x v. cbn. rewrite lookup_delete.
        by destruct (decide _).
      - rewrite on_disconnect_no_session in Hd by done. by simplify_eq. }
    destruct r1; by simplify_eq.
  - unfold post_start, await, finished in H. unfold_m.
    repeat (case_match; simplify_eq); split_and!; try done.
    by intros req k cont [= <- <- <-] τ.
Qed.

Lemma resume_effect cont res σ r σ' l :
  resume cont res σ = (r, σ', l) →
  chats σ' = chats σ ∧ messages σ' = messages σ ∧
  (∀ req k cont', r = Some (Some (req, k, cont')) →
     ∀ τ, task_wf τ {| task_cont := cont'; task_req := req; task_index := k;
                       task_res := None |}) ∧
  (userSockets σ' = userSockets σ ∨
   ∃ s u c d, cont = KJoin s u c ∧ res = SChat (Some d) ∧
              userSockets σ' = <[s := (u, c)]> (userSockets σ)).
Proof.
  intros H. unfold resume, socket_join_open, await, finished in H.
  destruct cont; unfold_m; repeat (case_match; simplify_eq); cbn;
    split_and!; try done;
    try (by intros req k cont' [= <- <- <-] τ); try (by left).
  all: right; by eexists _, _, _, _.
Qed.

Lemma server_wf_intro σ ts :
  session_wf σ → Forall (task_wf σ) ts → server_wf {| state := σ; pending := ts |}.
Proof. by split. Qed.

Lemma move_wf m srv r srv' l :
  server_wf srv → move m srv = (r, srv', l) →
  server_wf srv' ∧ store_grows (state srv) (state srv') ∧
  messages_kept (state srv) (state srv').
Proof.
  intros [Hsess Htasks] H. destruct srv as [σ ts]. cbn [state pending] in *.
  assert (Hidle : server_wf {| state := σ; pending := ts |} ∧ store_grows σ σ ∧
                  messages_kept σ σ).
  { split; [done|]. split; [by apply store_grows_eq|by apply messages_kept_refl]. }
  destruct m as [e|i env|i]; cbn [move state pending] in H.
  - destruct (start e σ) as [[r0 σ'] l0] eqn:Hst.
    destruct (start_effect _ _ _ _ _ Hst) as (Hc & Hm & Hsub & Hnew).
    pose proof (store_grows_eq _ _ Hc) as Hg.
    assert (Hs' : session_wf σ').
    { intros x u c Hx. destruct (Hsess x u c (Hsub _ _ Hx)) as (? & ? & ?).
      split_and!; try done. by apply Hg. }
    assert (Ht' : Forall (task_wf σ') ts).
    { eapply Forall_impl; [done|]. intros t. by apply task_wf_mono. }
    destruct r0 as [a|]; simplify_eq; cbn [state pending].
    + split_and!; [|done|by apply messages_kept_refl].
      apply server_wf_intro; [done|].
      destruct a as [[[req k] cont]|]; cbn [enqueue]; [|done].
      apply Forall_app. split; [done|]. apply Forall_cons_2; [|apply Forall_nil_2].
      by eapply Hnew.
    + split_and!; [done|done|by apply messages_kept_refl].
  - destruct (ts !! i) as [t|] eqn:Hi; [|by simplify_eq].
    destruct (task_res t) as [res0|] eqn:Hres; [by simplify_eq|].
    destruct (exec env (task_index t) (task_req t) σ) as [[res σ'] l0] eqn:Hex.
    simplify_eq. cbn [state pending].
    destruct (exec_effect _ _ _ _ _ _ _ Hex) as (Hus & Hg & Hm & Hread).
    split_and!; [|done|done]. apply server_wf_intro.
    + intros x u c Hx. rewrite Hus in Hx. destruct (Hsess x u c Hx) as (? & ? & ?).
      split_and!; try done. by apply Hg.
    + apply Forall_insert.
      * eapply Forall_impl; [done|]. intros t0. by apply task_wf_mono.
      * pose proof (Forall_lookup_1 _ _ _ _ Htasks Hi) as Ht.
        unfold task_wf in Ht |- *. cbn [task_cont task_req task_res].
        destruct (task_cont t); try done.
        destruct Ht as (? & ? & Hreq & _). split_and!; try done.
        intros d [= ->]. by eapply Hread.
  - destruct (ts !! i) as [t|] eqn:Hi; [|by simplify_eq].
    destruct (task_res t) as [res|] eqn:Hres; [|by simplify_eq].
    destruct (resume (task_cont t) res σ) as [[r0 σ'] l0] eqn:Hre.
    destruct (resume_effect _ _ _ _ _ _ Hre) as (Hc & Hm & Hnew & Hus).
    pose proof (store_grows_eq _ _ Hc) as Hg.
    pose proof (Forall_lookup_1 _ _ _ _ Htasks Hi) as Ht.
    assert (Hs' : session_wf σ').
    { intros x u c Hx. destruct Hus as [Hus|(s & u0 & c0 & d & Hk & -> & Hus)];
        rewrite Hus in Hx.
      - destruct (Hsess x u c Hx) as (? & ? & ?). split_and!; try done. by apply Hg.
      - rewrite lookup_insert in Hx. destruct (decide (s = x)) as [->|].
        + simplify_eq. unfold task_wf in Ht. rewrite Hk in Ht.
          destruct Ht as (? & ? & _ & Hd). split_and!; try done.
          apply Hg. by eapply Hd.
        + destruct (Hsess x u c Hx) as (? & ? & ?). split_and!; try done.
          by apply Hg. }
    assert (Ht' : Forall (task_wf σ') (delete i ts)).
    { apply Forall_delete. eapply Forall_impl; [done|].
      intros t0. by apply task_wf_mono. }
    destruct r0 as [a|]; simplify_eq; cbn [state pending].
    + split_and!; [|done|by apply messages_kept_refl].
      apply server_wf_intro; [done|].
      destruct a as [[[req k] cont]|]; cbn [enqueue]; [|done].
      apply Forall_app. split; [done|]. apply Forall_cons_2; [|apply Forall_nil_2].
      by eapply Hnew.
    + split_and!; [done|done|by apply messages_kept_refl].
Qed.

Lemma play_wf ms : ∀ srv r srv' l,
  server_wf srv → play ms srv = (r, srv', l) →
  server_wf srv' ∧ store_grows (state srv) (state srv') ∧
  messages_kept (state srv) (state srv').
Proof.
  induction ms as [|m ms IH]; intros srv r srv' l Hwf H; cbn [play] in H.
  - simplify_eq. split; [done|].
    split; [by apply store_grows_eq|by apply messages_kept_refl].
  - destruct (move m srv) as [[r1 srv1] l1] eqn:Hm.
    destruct (move_wf _ _ _ _ _ Hwf Hm) as (Hwf1 & Hg1 & Hk1).
    destruct r1 as [[]|]; [|by simplify_eq].
    destruct (play ms srv1) as [[r2 srv2] l2] eqn:Hp. simplify_eq.
    destruct (IH _ _ _ _ Hwf1 Hp) as (Hwf2 & Hg2 & Hk2).
    split_and!; [done| |].
    + intros c Hc. by apply Hg2, Hg1.
    + intros id m0 Hm0. by apply Hk2, Hk1.
Qed.

(** ** Schedules *)

Lemma play_app ms1 ms2 : ∀ srv,
  play (ms1 ++ ms2) srv =
  match play ms1 srv with
  | (Some _, srv1, l1) =>
      match play ms2 srv1 with
      | (r, srv2, l2) => (r, srv2, l1 ++ l2)
      end
  | (None, srv1, l1) => (None, srv1, l1)
  end.
Proof.
  induction ms1 as [|m ms1 IH]; intros srv; cbn [play app].
  - by destruct (play ms2 srv) as [[? ?] ?].
  - destruct (move m srv) as [[[[]|] srv1] l1]; [|done]. rewrite IH.
    destruct (play ms1 srv1) as [[[[]|] srv2] l2]; [|done].
    destruct (play ms2 srv2) as [[r srv3] l3]. by rewrite app_assoc.
Qed.

Lemma run_is_play tr : ∀ σ,
  play (serial tr) {| state := σ; pending := [] |} =
  match run tr σ with
  | (r, σ', l) => (r, {| state := σ'; pending := [] |}, l)
  end.
Proof.
  induction tr as [|[env e] tr IH]; intros σ; [done|].
  change (serial ((env, e) :: tr)) with (alone env e ++ serial tr).
  rewrite play_app, alone_is_dispatch, run_cons.
  destruct (dispatch env e σ) as [[[[]|] σ1] l1]; [|done]. rewrite IH.
  by destruct (run tr σ1) as [[r σ2] l2].
Qed.

Lemma move_store m srv r srv' l :
  move m srv = (r, srv', l) →
  store_grows (state srv) (state srv') ∧ messages_kept (state srv) (state srv').
Proof.
  intros H. destruct srv as [σ ts]. cbn [state pending] in *.
  assert (Hidle : store_grows σ σ ∧ messages_kept σ σ).
  { split; [by apply store_grows_eq|by apply messages_kept_refl]. }
  assert (Heq : ∀ σ', chats σ' = chats σ → messages σ' = messages σ →
                      store_grows σ σ' ∧ messages_kept σ σ').
  { intros σ' Hc Hm. split; [by apply store_grows_eq|].
    intros id m0. by rewrite Hm. }
  destruct m as [e|i env|i]; cbn [move state pending] in H.
  - destruct (start e σ) as [[r0 σ'] l0] eqn:Hst.
    destruct (start_effect _ _ _ _ _ Hst) as (Hc & Hm & _).
    destruct r0; simplify_eq; by apply Heq.
  - destruct (ts !! i) as [t|]; [|by simplify_eq].
    destruct (task_res t); [by simplify_eq|].
    destruct (exec env (task_index t) (task_req t) σ) as [[res σ'] l0] eqn:Hex.
    simplify_eq. by destruct (exec_effect _ _ _ _ _ _ _ Hex) as (_ & ? & ? & _).
  - destruct (ts !! i) as [t|]; [|by simplify_eq].
    destruct (task_res t) as [res|]; [|by simplify_eq].
    destruct (resume (task_cont t) res σ) as [[r0 σ'] l0] eqn:Hre.
    destruct (resume_effect _ _ _ _ _ _ Hre) as (Hc & Hm & _).
    destruct r0; simplify_eq; by apply Heq.
Qed.

Lemma play_store ms : ∀ srv r srv' l,
  play ms srv = (r, srv', l) →
  store_grows (state srv) (state srv') ∧ messages_kept (state srv) (state srv').
Proof.
  induction ms as [|m ms IH]; intros srv r srv' l H; cbn [play] in H.
  - simplify_eq. split; [by apply store_grows_eq|by apply messages_kept_refl].
  - destruct (move m srv) as [[r1 srv1] l1] eqn:Hm.
    destruct (move_store _ _ _ _ _ Hm) as (Hg1 & Hk1).
    destruct r1 as [[]|]; [|by simplify_eq].
    destruct (play ms srv1) as [[r2 srv2] l2] eqn:Hp. simplify_eq.
    destruct (IH _ _ _ _ Hp) as (Hg2 & Hk2). split.
    + intros c Hc. by apply Hg2, Hg1.
    + intros id m0 Hm0. by apply Hk2, Hk1.
Qed.

Lemma boot_wf cs ms : server_wf (boot cs ms).
Proof. split; [by intros s u c H|apply Forall_nil_2]. Qed.

(** The race of two POST requests for one pair: both read before either
    writes, and the second write replaces the document of the first. *)
Lemma post_race_overwrites :
  (play sched_first (boot ∅ ∅)).1.2 = srv_first ∧
  (play sched_second srv_first).1.2 = srv_second ∧
  createdAt <$> chats (state srv_first) !! "a_b" = Some 1%Z ∧
  createdAt <$> chats (state srv_second) !! "a_b" = Some 2%Z.
Proof. split_and!; by vm_compute. Qed.

(** A join that resumes after its socket has closed: the socket keeps a
    session, is connected no more and is in no room. *)
Lemma late_join_leaves_closed_session :
  state (play sched_late (boot ∅ ∅)).1.2 = st_late ∧
  userSockets st_late !! "A" = Some ("a", "a_b") ∧
  ("A" ∉ sockets st_late) ∧
  map_Forall (λ _ sockets_in, "A" ∉ sockets_in) (rooms st_late).
Proof. split_and!; try by vm_compute. all: decide_it. Qed.

(** X2: under every schedule of the server between its awaits, from every
    server state (handlers awaiting or not), a chat document that exists is
    never deleted and a stored message is never deleted or changed.  (A
    chat's fields can be replaced: [post_race_overwrites].) *)
Theorem store_never_forgets sched srv :
  store_grows (state srv) (state (play sched srv).1.2) ∧
  messages_kept (state srv) (state (play sched srv).1.2).
Proof.
  destruct (play sched srv) as [[r srv'] l] eqn:H. by apply play_store in H.
Qed.

(** X3: in every state the server reaches from its start, under every
    schedule of its handlers between their awaits, a session names a user
    id and a chat id that are not empty, and the chat exists in the store.
    (The socket of a session need not be connected nor in the chat's room:
    [late_join_leaves_closed_session].) *)
Theorem sessions_are_well_formed sched cs ms :
  session_wf (state (play sched (boot cs ms)).1.2).
Proof.
  destruct (play sched (boot cs ms)) as [[r srv'] l] eqn:H.
  by apply play_wf in H as [[? _] _]; [|apply boot_wf].
Qed.
